(** * FixMatch training script (train.py): a shallow embedding

    The development follows [train.py].  Python floats and the entries
    of float tensors are idealised as real numbers ([R]): rounding, NaN and
    infinities are outside the model.  Python integers are [Z] or [nat],
    strings are [string], a [dict] read by key is a [gmap], an
    [OrderedDict] whose items are iterated in order is an association
    list.  Exceptions are values of [exn]; a statement that can raise
    returns a [result]. *)

From stdpp Require Import base option list strings gmap.
From Stdlib Require Import Reals Lra.

Open Scope R_scope.

(** ** Exceptions and the error monad *)

Inductive exn : Type :=
  | KeyError (key : string)
  | IndexError (msg : string)
  | ValueError (msg : string)
  | TypeError (msg : string)
  | AttributeError (msg : string)
  | ZeroDivisionError
  | RuntimeError (msg : string).

Inductive result (A : Type) : Type :=
  | Ok (a : A)
  | Raise (e : exn).

Arguments Ok {A} a.
Arguments Raise {A} e.

Definition rbind {A B : Type} (m : result A) (k : A -> result B) : result B :=
  match m with
  | Ok a => k a
  | Raise e => Raise e
  end.

Notation "'do' x <~ m 'in' k" := (rbind m (fun x => k))
  (at level 10, x pattern, m at level 100, k at level 200).

Fixpoint rmap {A B : Type} (f : A -> result B) (l : list A) : result (list B) :=
  match l with
  | [] => Ok []
  | a :: l' => do b <~ f a in do bs <~ rmap f l' in Ok (b :: bs)
  end.

Definition is_Ok {A : Type} (m : result A) : Prop := exists a, m = Ok a.

(** ** Tensors and state dictionaries *)

(** A float tensor, flattened.  The operations below are the elementwise
    ones the script uses; operands of different sizes raise (broadcasting
    between different shapes is not modelled).  The entries of a state
    dictionary are such tensors: parameters and float buffers; integer
    buffers, whose values [copy_] would truncate, are outside the model. *)
Abbreviation tensor := (list R).

(** [t * c] for a Python scalar [c]. *)
Definition tensor_mul_scalar (t : tensor) (c : R) : tensor :=
  map (fun x => x * c) t.

(** [c * t] for a Python scalar [c]. *)
Definition scalar_mul_tensor (c : R) (t : tensor) : tensor :=
  map (fun x => c * x) t.

(** [a + b], elementwise. *)
Fixpoint tensor_add (a b : tensor) : result tensor :=
  match a, b with
  | [], [] => Ok []
  | x :: a', y :: b' => do r <~ tensor_add a' b' in Ok ((x + y) :: r)
  | _, _ => Raise (RuntimeError "size mismatch")
  end.

(** [Module.state_dict()]: an [OrderedDict] from names to tensors. *)
Abbreviation state_dict := (list (string * list R)).

Definition keys {V : Type} (d : list (string * V)) : list string := map fst d.

(** [d[k]]: the value stored under [k], [KeyError] when absent. *)
Fixpoint getitem {V : Type} (d : list (string * V)) (k : string) : result V :=
  match d with
  | [] => Raise (KeyError k)
  | (k', v) :: d' => if String.eqb k' k then Ok v else getitem d' k
  end.

(** [d[k] = v] on an [OrderedDict]: overwrite in place, or append. *)
Fixpoint setitem {V : Type} (d : list (string * V)) (k : string) (v : V)
  : list (string * V) :=
  match d with
  | [] => [(k, v)]
  | (k', v') :: d' =>
      if String.eqb k' k then (k', v) :: d' else (k', v') :: setitem d' k v
  end.

Definition contains {V : Type} (d : list (string * V)) (k : string) : bool :=
  existsb (String.eqb k) (keys d).

(** [Module.load_state_dict(src)] with the default [strict=True], as
    documented by torch: every key of the module must be present in [src],
    [src] may hold no other key, and sizes must agree; the module's entries
    then take the values of [src], in the module's own order. *)
Definition load_state_dict (own src : state_dict) : result state_dict :=
  let missing := filter (fun k => negb (contains src k)) (keys own) in
  let unexpected := filter (fun k => negb (contains own k)) (keys src) in
  match missing, unexpected with
  | [], [] =>
      rmap (fun '(k, old) =>
              do v <~ getitem src k in
              if Nat.eqb (length v) (length old) then Ok (k, v)
              else Raise (RuntimeError "size mismatch")) own
  | _, _ => Raise (RuntimeError "Missing or unexpected key(s) in state_dict")
  end.

(** ** get_cosine_schedule_with_warmup (lines 49-61) *)

Definition num_cycles_default : R := 7 / 16.

(** [num_warmup_steps] is a float in [main] ([args.warmup] times a loader
    length), [num_training_steps] and [current_step] are integers. *)
Definition _lr_lambda (num_warmup_steps : R) (num_training_steps : Z)
    (num_cycles : R) (current_step : Z) : R :=
  if Rlt_dec (IZR current_step) num_warmup_steps then
    IZR current_step / Rmax 1 num_warmup_steps
  else
    let no_progress :=
      (IZR current_step - num_warmup_steps)
      / Rmax 1 (IZR num_training_steps - num_warmup_steps) in
    Rmax 0 (cos (PI * num_cycles * no_progress)).

(** The multiplier of the scheduler that [main] builds: [num_cycles] is
    left at its default. *)
Definition rate_multiplier (num_warmup_steps : R) (num_training_steps : Z)
    (current_step : Z) : R :=
  _lr_lambda num_warmup_steps num_training_steps num_cycles_default current_step.

(** ** ModelEMA (lines 475-512) *)

(** What [update] and [main] see of a model: its [state_dict()] and whether
    it has a [module] attribute (a replication wrapper). *)
Record Model : Type := {
  model_state : state_dict;
  has_module : bool
}.

Record ModelEMA : Type := {
  ema : state_dict;
  decay : R;
  ema_has_module : bool
}.

(** The right-hand side of line 512. *)
Definition ema_value (decay : R) (ema_v model_v : tensor) : result tensor :=
  tensor_add (tensor_mul_scalar ema_v decay)
             (scalar_mul_tensor (1 - decay) model_v).

(** Lines 507-508: the name looked up in the live state for a shadow key. *)
Definition live_name (needs_module : bool) (k : string) : string :=
  if needs_module then ("module." ++ k)%string else k.

(** The loop of lines 506-512 over the shadow's items. *)
Fixpoint update_items (needs_module : bool) (decay : R) (msd : state_dict)
    (items : state_dict) : result state_dict :=
  match items with
  | [] => Ok []
  | (k, ema_v) :: rest =>
      let k' := live_name needs_module k in
      do model_v <~ getitem msd k' in
      do new_v <~ ema_value decay ema_v model_v in
      do rest' <~ update_items needs_module decay msd rest in
      Ok ((k, new_v) :: rest')
  end.

Definition update (self : ModelEMA) (model : Model) : result ModelEMA :=
  let needs_module := has_module model && negb (ema_has_module self) in
  let msd := model_state model in
  do ema' <~ update_items needs_module (decay self) msd (ema self) in
  Ok {| ema := ema'; decay := decay self; ema_has_module := ema_has_module self |}.

(** ** Checkpoint records *)

(** What the optimizer and the scheduler put in a checkpoint:
    [optimizer.state_dict()] holds the momentum buffers and the groups'
    settings, [scheduler.state_dict()] the step counter. *)
Record optimizer_state : Type := {
  momentum_buffers : list tensor;
  group_weight_decay : list R
}.

Record scheduler_state : Type := {
  last_epoch : Z
}.

(** The values a checkpoint dictionary holds. *)
Inductive value : Type :=
  | VNone
  | VInt (n : Z)
  | VFloat (x : R)
  | VStateDict (d : state_dict)
  | VOptimizer (o : optimizer_state)
  | VScheduler (s : scheduler_state).

(** [checkpoint[k]] on the dictionary that [torch.load] returns. *)
Definition ckpt_get (checkpoint : gmap string value) (k : string) : result value :=
  match checkpoint !! k with
  | Some v => Ok v
  | None => Raise (KeyError k)
  end.

Definition as_state_dict (v : value) : result state_dict :=
  match v with
  | VStateDict d => Ok d
  | _ => Raise (AttributeError "object has no attribute 'items'")
  end.

(** Line 496 and 498: the name under which a saved entry is loaded. *)
Definition load_name (ema_has_module : bool) (k : string) : string :=
  if ema_has_module then
    if negb (String.prefix "module" k) then ("module." ++ k)%string else k
  else k.

(** Lines 493-499: [new_state_dict], filled in the order of the saved items. *)
Definition new_state_dict (ema_has_module : bool) (saved : state_dict) : state_dict :=
  fold_left (fun d '(k, v) => setitem d (load_name ema_has_module k) v) saved [].

(** [ModelEMA._load_checkpoint], applied to the loaded checkpoint. *)
Definition _load_checkpoint (self : ModelEMA) (checkpoint : gmap string value)
  : result ModelEMA :=
  match checkpoint !! "ema_state_dict"%string with
  | Some v =>
      do saved <~ as_state_dict v in
      do ema' <~ load_state_dict (ema self)
                   (new_state_dict (ema_has_module self) saved) in
      Ok {| ema := ema'; decay := decay self;
            ema_has_module := ema_has_module self |}
  | None => Ok self
  end.

(** ** The losses of one training step (lines 379-387) *)

Definition sum_R (l : list R) : R := fold_right Rplus 0 l.

(** [t.mean()]. *)
Definition mean (l : list R) : R := sum_R l / INR (length l).

(** [torch.softmax(row, dim=-1)] on one row of logits. *)
Definition softmax (row : list R) : list R :=
  let z := sum_R (map exp row) in
  map (fun x => exp x / z) row.

(** The scan behind [torch.max(row, dim=-1)]: the largest value seen so far
    and the first index where it occurs. *)
Fixpoint max_scan (best : R) (best_i : nat) (i : nat) (l : list R) : R * nat :=
  match l with
  | [] => (best, best_i)
  | x :: l' =>
      if Rlt_dec best x then max_scan x i (S i) l'
      else max_scan best best_i (S i) l'
  end.

(** [torch.max(row, dim=-1)]: (values, indices); an empty row raises. *)
Definition torch_max (row : list R) : result (R * nat) :=
  match row with
  | [] => Raise (IndexError "max(): expected reduction dim to have non-zero size")
  | x :: l => Ok (max_scan x 0%nat 1%nat l)
  end.

(** [max_probs.ge(threshold).float()] on one entry. *)
Definition ge_float (p threshold : R) : R :=
  if Rge_dec p threshold then 1 else 0.

(** Cross-entropy of one row of logits against a class index: minus the
    logarithm of the softmax probability of the class. *)
Definition cross_entropy_row (row : list R) (target : nat) : result R :=
  match softmax row !! target with
  | Some p => Ok (- ln p)
  | None => Raise (IndexError "Target is out of bounds")
  end.

Fixpoint cross_entropy_rows (logits : list (list R)) (targets : list nat)
  : result (list R) :=
  match logits, targets with
  | [], [] => Ok []
  | row :: logits', t :: targets' =>
      do c <~ cross_entropy_row row t in
      do cs <~ cross_entropy_rows logits' targets' in
      Ok (c :: cs)
  | _, _ => Raise (ValueError "Expected input batch_size to match target batch_size")
  end.

(** [F.cross_entropy(logits, targets, reduction='none')]. *)
Definition cross_entropy_none (logits : list (list R)) (targets : list nat)
  : result (list R) :=
  cross_entropy_rows logits targets.

(** [F.cross_entropy(logits, targets, reduction='mean')]. *)
Definition cross_entropy_mean (logits : list (list R)) (targets : list nat)
  : result R :=
  do cs <~ cross_entropy_rows logits targets in Ok (mean cs).

(** [a * b] on two vectors of one size. *)
Definition tensor_mul (a b : tensor) : tensor := zip_with Rmult a b.

(** What lines 379-387 bind. *)
Record step_losses : Type := {
  Lx : R;
  targets_u : list nat;
  max_probs : list R;
  mask : list R;
  Lu : R;
  loss : R
}.

(** Lines 379-387 of [train] on the three segments of the logits.  [loss]
    is the value that lines 389-393 back-propagate from (directly, or
    through the loss scaling of apex under [--amp]). *)
Definition train_losses (threshold lambda_u : R)
    (logits_x : list (list R)) (targets_x : list nat)
    (logits_u_w logits_u_s : list (list R)) : result step_losses :=
  do Lx <~ cross_entropy_mean logits_x targets_x in
  let pseudo_label := map softmax logits_u_w in
  do mx <~ rmap torch_max pseudo_label in
  let max_probs := map fst mx in
  let targets_u := map snd mx in
  let mask := map (fun p => ge_float p threshold) max_probs in
  do ce <~ cross_entropy_none logits_u_s targets_u in
  let Lu := mean (tensor_mul ce mask) in
  let loss := Lx + lambda_u * Lu in
  Ok {| Lx := Lx; targets_u := targets_u; max_probs := max_probs;
        mask := mask; Lu := Lu; loss := loss |}.

(** ** The optimizer's parameter groups (lines 232-241) *)

(** [nd in n] on strings: [nd] occurs in [n]. *)
Fixpoint str_in (nd n : string) : bool :=
  String.prefix nd n ||
  match n with
  | EmptyString => false
  | String _ n' => str_in nd n'
  end.

Definition no_decay : list string := ["bias"; "bn"]%string.

(** [any(nd in n for nd in no_decay)]. *)
Definition any_no_decay (n : string) : bool :=
  existsb (fun nd => str_in nd n) no_decay.

Record param_group (P : Type) : Type := {
  params : list P;
  weight_decay : R
}.

Arguments params {P} _.
Arguments weight_decay {P} _.

(** The named parameters each comprehension keeps. *)
Definition decayed {P : Type} (named_parameters : list (string * P))
  : list (string * P) :=
  filter (fun np => negb (any_no_decay (fst np))) named_parameters.

Definition not_decayed {P : Type} (named_parameters : list (string * P))
  : list (string * P) :=
  filter (fun np => any_no_decay (fst np)) named_parameters.

Definition grouped_parameters {P : Type} (wdecay : R)
    (named_parameters : list (string * P)) : list (param_group P) :=
  [ {| params := map snd (decayed named_parameters);
       weight_decay := wdecay * 2 |};
    {| params := map snd (not_decayed named_parameters);
       weight_decay := 0 |} ].

(** ** Data loaders and the loop of [train] (lines 212-224, 361-367) *)

(** Consecutive batches of [batch_size] examples; the last, incomplete one
    is dropped ([drop_last=True]).  [fuel] bounds the number of batches. *)
Fixpoint batches_of {A : Type} (fuel : nat) (batch_size : nat) (dataset : list A)
  : list (list A) :=
  match fuel with
  | O => []
  | S fuel' =>
      if (length dataset <? batch_size)%nat then []
      else take batch_size dataset
             :: batches_of fuel' batch_size (drop batch_size dataset)
  end.

(** [DataLoader(dataset, sampler=SequentialSampler(dataset),
    batch_size=batch_size, drop_last=True)], as the list of its batches. *)
Definition DataLoader {A : Type} (dataset : list A) (batch_size : Z)
  : result (list (list A)) :=
  if (batch_size <=? 0)%Z then
    Raise (ValueError "batch_size should be a positive integer value")
  else Ok (batches_of (length dataset) (Z.to_nat batch_size) dataset).

(** Line 247: [int(args.k_img / args.batch_size)]; the float quotient is
    taken as exact and [int] truncates it toward zero. *)
Definition iteration (k_img batch_size : Z) : result Z :=
  if (batch_size =? 0)%Z then Raise ZeroDivisionError
  else Ok (Z.quot k_img batch_size).

(** [enumerate(l)]. *)
Definition enumerate {A : Type} (l : list A) : list (nat * A) :=
  imap (fun i a => (i, a)) l.

(** Line 361: [zip(labeled_trainloader, unlabeled_trainloader)]. *)
Definition train_loader {Bx Bu : Type} (labeled_trainloader : list Bx)
    (unlabeled_trainloader : list Bu) : list (Bx * Bu) :=
  zip labeled_trainloader unlabeled_trainloader.

(** The loop of line 367 over a state [S]; [body] is one pass (lines
    368-421) and may raise. *)
Fixpoint train_loop {S Bx Bu : Type} (body : S -> nat -> Bx -> Bu -> result S)
    (batches : list (nat * (Bx * Bu))) (st : S) : result S :=
  match batches with
  | [] => Ok st
  | (batch_idx, (data_x, data_u)) :: batches' =>
      do st' <~ body st batch_idx data_x data_u in
      train_loop body batches' st'
  end.

Definition train {S Bx Bu : Type} (body : S -> nat -> Bx -> Bu -> result S)
    (labeled_trainloader : list Bx) (unlabeled_trainloader : list Bu) (st : S)
  : result S :=
  train_loop body
    (enumerate (train_loader labeled_trainloader unlabeled_trainloader)) st.


(** ** [main]: resume, the epoch loop and the checkpoints (lines 256-339) *)

(** The objects [main] trains: the model, the shadow model ([None] without
    [--use-ema]), the optimizer and the scheduler. *)
Record learner : Type := {
  model : Model;
  ema_model : option ModelEMA;
  optimizer : optimizer_state;
  scheduler : scheduler_state
}.

(** The state dictionary of [m.module] when [m] has one: the names lose the
    wrapper's prefix. *)
Definition strip_module (k : string) : string :=
  if String.prefix "module." k then String.substring 7 (String.length k - 7) k
  else k.

Definition state_to_save (has_module : bool) (d : state_dict) : state_dict :=
  if has_module then map (fun '(k, v) => (strip_module k, v)) d else d.

(** Lines 329-337: the dictionary handed to [save_checkpoint]. *)
Definition checkpoint_record (epoch : Z) (l : learner) (test_acc best_acc : R)
  : gmap string value :=
  let model_to_save := state_to_save (has_module (model l)) (model_state (model l)) in
  <["epoch"%string := VInt (epoch + 1)]>
  (<["state_dict"%string := VStateDict model_to_save]>
  (<["ema_state_dict"%string :=
       match ema_model l with
       | Some e => VStateDict (state_to_save (ema_has_module e) (ema e))
       | None => VNone
       end]>
  (<["acc"%string := VFloat test_acc]>
  (<["best_acc"%string := VFloat best_acc]>
  (<["optimizer"%string := VOptimizer (optimizer l)]>
  (<["scheduler"%string := VScheduler (scheduler l)]> ∅)))))).

(** The files of the output directory that [save_checkpoint] writes. *)
Record out_dir : Type := {
  checkpoint_pth : option (gmap string value);
  model_best_pth : option (gmap string value)
}.

(** [save_checkpoint] (lines 33-38). *)
Definition save_checkpoint (state : gmap string value) (is_best : bool)
    (out : out_dir) : out_dir :=
  {| checkpoint_pth := Some state;
     model_best_pth := if is_best then Some state else model_best_pth out |}.

Definition as_float (v : value) : result R :=
  match v with
  | VFloat x => Ok x
  | VInt n => Ok (IZR n)
  | _ => Raise (TypeError "not a number")
  end.

Definition as_int (v : value) : result Z :=
  match v with
  | VInt n => Ok n
  | _ => Raise (TypeError "object cannot be interpreted as an integer")
  end.

Definition as_module_state (v : value) : result state_dict :=
  match v with
  | VStateDict d => Ok d
  | _ => Raise (TypeError "Expected state_dict to be dict-like")
  end.

(** [optimizer.load_state_dict]: the groups must be as many as the
    optimizer's own. *)
Definition optimizer_load (own : optimizer_state) (v : value) : result optimizer_state :=
  match v with
  | VOptimizer o =>
      if Nat.eqb (length (group_weight_decay o)) (length (group_weight_decay own))
      then Ok o
      else Raise (ValueError "loaded state dict has a different number of parameter groups")
  | _ => Raise (TypeError "not an optimizer state")
  end.

(** [scheduler.load_state_dict]. *)
Definition scheduler_load (v : value) : result scheduler_state :=
  match v with
  | VScheduler s => Ok s
  | _ => Raise (TypeError "not a scheduler state")
  end.

(** Lines 266-272, on the checkpoint that [torch.load] returned: the new
    [best_acc], [start_epoch] and the restored objects. *)
Definition resume (checkpoint : gmap string value) (l : learner)
  : result (R * Z * learner) :=
  do b <~ ckpt_get checkpoint "best_acc" in
  do best_acc <~ as_float b in
  do e <~ ckpt_get checkpoint "epoch" in
  do start_epoch <~ as_int e in
  do sd <~ ckpt_get checkpoint "state_dict" in
  do sd <~ as_module_state sd in
  do model_state' <~ load_state_dict (model_state (model l)) sd in
  do shadow <~ match ema_model l with
               | Some s => Ok s
               | None => Raise (AttributeError "'NoneType' object has no attribute 'ema'")
               end in
  do esd <~ ckpt_get checkpoint "ema_state_dict" in
  do esd <~ as_module_state esd in
  do ema' <~ load_state_dict (ema shadow) esd in
  do o <~ ckpt_get checkpoint "optimizer" in
  do optimizer' <~ optimizer_load (optimizer l) o in
  do s <~ ckpt_get checkpoint "schduler" in
  do scheduler' <~ scheduler_load s in
  Ok (best_acc, start_epoch,
      {| model := {| model_state := model_state'; has_module := has_module (model l) |};
         ema_model := Some {| ema := ema'; decay := decay shadow;
                              ema_has_module := ema_has_module shadow |};
         optimizer := optimizer';
         scheduler := scheduler' |}).

(** The variables of the epoch loop. *)
Record main_state : Type := {
  objects : learner;
  best_acc : R;
  test_accs : list R;
  out : out_dir
}.

Section EpochLoop.
Context {Bx Bu : Type}.
(** One pass of the loop of [train], and [test], which returns the top-1
    accuracy of the model it is given. *)
Variable body : learner -> nat -> Bx -> Bu -> result learner.
Variable test : Model + ModelEMA -> Z -> R.
Variables (labeled_trainloader : list Bx) (unlabeled_trainloader : list Bu).

(** Lines 299-339, one epoch. *)
Definition epoch_body (st : main_state) (epoch : Z) : result main_state :=
  do l <~ train body labeled_trainloader unlabeled_trainloader (objects st) in
  let test_model :=
    match ema_model l with
    | Some e => inr e
    | None => inl (model l)
    end in
  let test_acc := test test_model epoch in
  let is_best := if Rgt_dec test_acc (best_acc st) then true else false in
  let best_acc' := Rmax test_acc (best_acc st) in
  let out' := save_checkpoint (checkpoint_record epoch l test_acc best_acc')
                is_best (out st) in
  Ok {| objects := l; best_acc := best_acc';
        test_accs := test_accs st ++ [test_acc]; out := out' |}.

(** The loop over the epochs still to run. *)
Fixpoint epochs_from (st : main_state) (epochs : list Z) : result main_state :=
  match epochs with
  | [] => Ok st
  | epoch :: epochs' =>
      do st' <~ epoch_body st epoch in epochs_from st' epochs'
  end.

(** Line 297: [for epoch in range(start_epoch, args.epochs)]. *)
Definition epoch_loop (st : main_state) (start_epoch epochs : Z) : result main_state :=
  epochs_from st (seqZ start_epoch (epochs - start_epoch)).
End EpochLoop.

(** [n] iterations of [ema_model.update(model)] against an unchanged live
    model, as the loop of [train] performs them. *)
Fixpoint repeat_update (n : nat) (self : ModelEMA) (live : Model) : result ModelEMA :=
  match n with
  | O => Ok self
  | S n' => do self' <~ update self live in repeat_update n' self' live
  end.

(** The scenario of the specification: one weight, shadow value [x], decay
    0.9, against a live model whose weight is 0. *)
Definition shadow_with (x : R) : ModelEMA :=
  {| ema := [("weight"%string, [x])]; decay := 0.9; ema_has_module := false |}.

Definition live_zero : Model :=
  {| model_state := [("weight"%string, [0])]; has_module := false |}.

(** The largest of [best0] and the accuracies [accs], after the words of
    the specification ("the maximum test accuracy seen so far"). *)
Definition max_so_far (best0 : R) (accs : list R) : R :=
  fold_right Rmax best0 accs.

(** The scenario of the specification for the best accuracy: a fresh run
    whose evaluations return 70, 65, 80 and 75 in the epochs 0 to 3; the
    loaders are empty, so [train] has nothing to do. *)
Definition scenario_accs : list R := [70; 65; 80; 75].

Definition scenario_test (_ : Model + ModelEMA) (epoch : Z) : R :=
  nth (Z.to_nat epoch) scenario_accs 0.


Definition scenario_learner : learner :=
  {| model := live_zero;
     ema_model := Some (shadow_with 10);
     optimizer := {| momentum_buffers := [[0]]; group_weight_decay := [0.001; 0] |};
     scheduler := {| last_epoch := 0 |} |}.

Definition scenario_start : main_state :=
  {| objects := scenario_learner;
     best_acc := 0;
     test_accs := [];
     out := {| checkpoint_pth := None; model_best_pth := None |} |}.

(** * Further parts of the script *)


(** [a, b = t.chunk(2)] on the rows of [t]: [torch.chunk] cuts chunks of
    [ceil(n / 2)] rows, which gives two chunks for [n >= 2] rows, two empty
    ones for no row, and a single chunk (so the unpacking raises) for one
    row. *)
Definition chunk2 {A : Type} (t : list A) : result (list A * list A) :=
  match length t with
  | O => Ok ([], [])
  | S O => Raise (ValueError "not enough values to unpack (expected 2, got 1)")
  | n => let c := ((n + 1) / 2)%nat in Ok (take c t, drop c t)
  end.

(** Lines 374-375: the three segments of the logits of one forward pass. *)
Definition split_logits {A : Type} (batch_size : nat) (logits : list A)
  : result (list A * list A * list A) :=
  let logits_x := take batch_size logits in
  do uws <~ chunk2 (drop batch_size logits) in
  Ok (logits_x, fst uws, snd uws).

(** Line 407: [mask.mean().item()]. *)
Definition mask_prob (r : step_losses) : R := mean (mask r).

(** ** One pass of the loop of [train] and what [train] returns *)

(** What [train] as a whole can raise: the exceptions of its passes, and
    the unbound local variable of its [return] statement. *)
Inductive raised : Type :=
  | Exn (e : exn)
  | UnboundLocalError (name : string).

(** [scheduler.step()]: the scheduler counts one more step. *)
Definition scheduler_step (s : scheduler_state) : scheduler_state :=
  {| last_epoch := last_epoch s + 1 |}.

(** Line 248: [args.epochs * args.iteration]. *)
Definition total_steps (epochs iteration : Z) : Z := (epochs * iteration)%Z.

Section TrainPass.
Context {X Meter : Type}.
Variables (threshold lambda_u : R).
(** [model(inputs)] (line 373): the rows of logits of a batch of inputs. *)
Variable forward : Model -> list X -> result (list (list R)).
(** Lines 389-399: the backward pass and [optimizer.step()], at the rate
    the scheduler has set; they give the model and the optimizer their next
    state. *)
Variable backward_step :
  Model -> optimizer_state -> scheduler_state -> list X -> list nat ->
  result (Model * optimizer_state).
(** [AverageMeter] of [utils]: a new meter, [update] and [avg]. *)
Variable meter_new : Meter.
Variable meter_update : Meter -> R -> Meter.
Variable meter_avg : Meter -> R.

(** Lines 368-403 on the objects of the run; the losses of the pass are
    returned for the meters and the mask rate. *)
Definition train_iteration (l : learner) (data_x : list X * list nat)
    (data_u : (list X * list X) * list nat) : result (learner * step_losses) :=
  let '(inputs_x, targets_x) := data_x in
  let '((inputs_u_w, inputs_u_s), _) := data_u in
  let batch_size := length inputs_x in
  let inputs := inputs_x ++ inputs_u_w ++ inputs_u_s in
  do logits <~ forward (model l) inputs in
  do segments <~ split_logits batch_size logits in
  let '(logits_x, logits_u_w, logits_u_s) := segments in
  do r <~ train_losses threshold lambda_u logits_x targets_x logits_u_w logits_u_s in
  do stepped <~ backward_step (model l) (optimizer l) (scheduler l) inputs targets_x in
  let scheduler' := scheduler_step (scheduler l) in
  do ema' <~ match ema_model l with
             | Some shadow => do shadow' <~ update shadow (fst stepped) in Ok (Some shadow')
             | None => Ok None
             end in
  Ok ({| model := fst stepped; ema_model := ema'; optimizer := snd stepped;
         scheduler := scheduler' |}, r).

(** The pass as the epoch loop sees it: its effect on the objects. *)
Definition train_body (l : learner) (batch_idx : nat) (data_x : list X * list nat)
    (data_u : (list X * list X) * list nat) : result learner :=
  do lr <~ train_iteration l data_x data_u in Ok (fst lr).

(** The local variables of [train] that its [return] reads; [mask_prob] is
    bound by the first pass only. *)
Record train_locals : Type := {
  trained : learner;
  losses : Meter;
  losses_x : Meter;
  losses_u : Meter;
  last_mask_prob : option R
}.

Definition train_pass (st : train_locals) (batch_idx : nat)
    (data_x : list X * list nat) (data_u : (list X * list X) * list nat)
  : result train_locals :=
  do lr <~ train_iteration (trained st) data_x data_u in
  let r := snd lr in
  Ok {| trained := fst lr;
        losses := meter_update (losses st) (loss r);
        losses_x := meter_update (losses_x st) (Lx r);
        losses_u := meter_update (losses_u st) (Lu r);
        last_mask_prob := Some (mask_prob r) |}.

(** [train] with its [return] (lines 352-425): the objects after the loop
    and [(losses.avg, losses_x.avg, losses_u.avg, mask_prob)]. *)
Definition train_full (labeled_trainloader : list (list X * list nat))
    (unlabeled_trainloader : list ((list X * list X) * list nat)) (l : learner)
  : raised + (learner * (R * R * R * R)) :=
  match train train_pass labeled_trainloader unlabeled_trainloader
          {| trained := l; losses := meter_new; losses_x := meter_new;
             losses_u := meter_new; last_mask_prob := None |} with
  | Raise e => inl (Exn e)
  | Ok st =>
      match last_mask_prob st with
      | Some mp =>
          inr (trained st,
               (meter_avg (losses st), meter_avg (losses_x st),
                meter_avg (losses_u st), mp))
      | None => inl (UnboundLocalError "mask_prob")
      end
  end.
End TrainPass.

(** A small instance of the parameters of a pass: one input type, a
    forward pass that answers every input with the logits [0; 1], an
    optimizer step that changes nothing, and meters that keep the values
    they are given. *)
Definition toy_forward (_ : Model) (inputs : list unit) : result (list (list R)) :=
  Ok (map (fun _ => [0; 1]) inputs).

Definition toy_backward_step (m : Model) (o : optimizer_state) (_ : scheduler_state)
    (_ : list unit) (_ : list nat) : result (Model * optimizer_state) :=
  Ok (m, o).

Definition toy_labeled : list (list unit * list nat) := [([tt], [1%nat])].

Definition toy_unlabeled : list ((list unit * list unit) * list nat) :=
  [(([tt], [tt]), [0%nat])].

(** ** The order of the steps of [main] *)







(** * Properties *)

(** ** The embedding on small inputs *)

Example str_in_examples :
  str_in "bn" "block1.bn1.weight" = true
  /\ str_in "bias" "conv1.bias" = true
  /\ str_in "bias" "conv1.weight" = false
  /\ str_in "" "fc.weight" = true
  /\ any_no_decay "block1.layer.0.conv1.weight" = false.
Proof. repeat split. Qed.

Example load_name_examples :
  load_name true "conv1.weight" = "module.conv1.weight"%string
  /\ load_name true "module.conv1.weight" = "module.conv1.weight"%string
  /\ load_name false "module.conv1.weight" = "module.conv1.weight"%string
  /\ strip_module "module.conv1.weight" = "conv1.weight"%string.
Proof. repeat split. Qed.

Example new_state_dict_example :
  keys (new_state_dict true [("a"%string, [1]); ("module.a"%string, [2]);
                             ("b"%string, [3])])
  = ["module.a"; "module.b"]%string.
Proof. reflexivity. Qed.

Example DataLoader_example :
  DataLoader [1; 2; 3; 4; 5; 6; 7]%nat 3 = Ok [[1; 2; 3]; [4; 5; 6]]%nat
  /\ DataLoader [1; 2]%nat 0 = Raise (ValueError "batch_size should be a positive integer value")
  /\ iteration 65536 64 = Ok 1024%Z
  /\ iteration 7 0 = Raise ZeroDivisionError.
Proof. repeat split. Qed.

Example train_loader_example :
  enumerate (train_loader [10; 20; 30]%nat [true; false])
  = [(0, (10, true)); (1, (20, false))]%nat.
Proof. reflexivity. Qed.

(** The literal scenario of the specification: with threshold 0.95 the
    probabilities 0.97, 0.02, 0.01 give the pseudo-label 0 and the mask 1,
    and 0.5, 0.3, 0.2 give the mask 0. *)
Example mask_examples :
  torch_max [0.97; 0.02; 0.01] = Ok (0.97, 0%nat)
  /\ ge_float 0.97 0.95 = 1
  /\ torch_max [0.5; 0.3; 0.2] = Ok (0.5, 0%nat)
  /\ ge_float 0.5 0.95 = 0.
Proof.
  unfold torch_max, max_scan, ge_float.
  repeat match goal with
         | |- context [Rlt_dec ?a ?b] => destruct (Rlt_dec a b); [lra |]
         | |- context [Rge_dec ?a ?b] => destruct (Rge_dec a b); try lra
         end.
  now repeat split.
Qed.

(** ** The learning-rate schedule *)

Section ScheduleFacts.
Variables (w : R) (T : Z).

Lemma Rmax_1_pos (x : R) : 0 < Rmax 1 x.
Proof. pose proof (Rmax_l 1 x). lra. Qed.

Lemma lr_warmup (s : Z) :
  IZR s < w -> rate_multiplier w T s = IZR s / Rmax 1 w.
Proof.
  intros Hlt. unfold rate_multiplier, _lr_lambda.
  destruct (Rlt_dec (IZR s) w); [reflexivity | contradiction].
Qed.

Lemma lr_cosine (s : Z) :
  ~ IZR s < w ->
  rate_multiplier w T s
  = Rmax 0 (cos (PI * (7 / 16) * ((IZR s - w) / Rmax 1 (IZR T - w)))).
Proof.
  intros Hge. unfold rate_multiplier, _lr_lambda, num_cycles_default.
  destruct (Rlt_dec (IZR s) w); [contradiction | reflexivity].
Qed.

(** Between the end of the warmup and the last step the progress stays
    in the unit interval. *)
Lemma progress_unit (s : Z) :
  w <= IZR s -> (s <= T)%Z ->
  0 <= (IZR s - w) / Rmax 1 (IZR T - w) <= 1.
Proof.
  intros Hw HT. apply IZR_le in HT.
  pose proof (Rmax_1_pos (IZR T - w)) as Hpos.
  pose proof (Rmax_r 1 (IZR T - w)) as Hr.
  split.
  - apply Rmult_le_pos; [lra | left; now apply Rinv_0_lt_compat].
  - apply (Rmult_le_reg_r (Rmax 1 (IZR T - w))); [exact Hpos |].
    unfold Rdiv. rewrite Rmult_assoc, Rinv_l by lra. lra.
Qed.

Lemma progress_mono (s s' : Z) :
  (s <= s')%Z ->
  (IZR s - w) / Rmax 1 (IZR T - w) <= (IZR s' - w) / Rmax 1 (IZR T - w).
Proof.
  intros Hle. apply IZR_le in Hle.
  pose proof (Rmax_1_pos (IZR T - w)) as Hpos.
  apply Rmult_le_compat_r; [left; now apply Rinv_0_lt_compat | lra].
Qed.

Lemma lr_range (s : Z) : (0 <= s)%Z -> 0 <= rate_multiplier w T s <= 1.
Proof.
  intros Hs. apply IZR_le in Hs.
  destruct (Rlt_dec (IZR s) w) as [Hlt | Hge].
  - rewrite lr_warmup by assumption.
    pose proof (Rmax_1_pos w) as Hpos. pose proof (Rmax_r 1 w) as Hr.
    split.
    + apply Rmult_le_pos; [lra | left; now apply Rinv_0_lt_compat].
    + apply (Rmult_le_reg_r (Rmax 1 w)); [exact Hpos |].
      unfold Rdiv. rewrite Rmult_assoc, Rinv_l by lra. lra.
  - rewrite lr_cosine by assumption. split; [apply Rmax_l |].
    apply Rmax_lub; [lra | apply COS_bound].
Qed.

Lemma lr_warmup_mono (s s' : Z) :
  (0 <= s)%Z -> (s <= s')%Z -> IZR s' < w ->
  rate_multiplier w T s <= rate_multiplier w T s'.
Proof.
  intros Hs Hle Hlt. pose proof (IZR_le _ _ Hle) as Hle'.
  rewrite !lr_warmup by lra.
  apply Rmult_le_compat_r; [| exact Hle'].
  left. apply Rinv_0_lt_compat, Rmax_1_pos.
Qed.

Lemma lr_cosine_mono (s s' : Z) :
  w <= IZR s -> (s <= s')%Z -> (s' <= T)%Z ->
  rate_multiplier w T s' <= rate_multiplier w T s.
Proof.
  intros Hw Hle HT. pose proof (IZR_le _ _ Hle) as Hle'.
  rewrite !lr_cosine by lra.
  apply Rle_max_compat_l.
  destruct (progress_unit s Hw ltac:(lia)) as [Hp0 Hp1].
  destruct (progress_unit s' ltac:(lra) HT) as [Hq0 Hq1].
  pose proof (progress_mono s s' Hle) as Hpq.
  pose proof PI_RGT_0 as Hpi.
  set (p := (IZR s - w) / Rmax 1 (IZR T - w)) in *.
  set (q := (IZR s' - w) / Rmax 1 (IZR T - w)) in *.
  apply cos_decr_1; nra.
Qed.
End ScheduleFacts.

(** C4. For every step [s >= 0] the multiplier lies in [0, 1]; below the
    warmup it is [s / max(1, warmup)], hence 0 at step 0 when the warmup is
    positive and non-decreasing over the warmup; from the warmup on it is
    [max(0, cos(pi * 7/16 * progress))] with
    [progress = (s - warmup) / max(1, total - warmup)], and it is
    non-increasing between the warmup and the total number of steps. *)
Theorem rate_multiplier_shape (w : R) (T s : Z) :
  (0 <= s)%Z ->
  0 <= rate_multiplier w T s <= 1
  /\ (IZR s < w -> rate_multiplier w T s = IZR s / Rmax 1 w)
  /\ (0 < w -> rate_multiplier w T 0 = 0)
  /\ (forall s' : Z, (s <= s')%Z -> IZR s' < w ->
        rate_multiplier w T s <= rate_multiplier w T s')
  /\ (~ IZR s < w ->
        rate_multiplier w T s
        = Rmax 0 (cos (PI * (7 / 16) * ((IZR s - w) / Rmax 1 (IZR T - w)))))
  /\ (forall s' : Z, w <= IZR s -> (s <= s')%Z -> (s' <= T)%Z ->
        rate_multiplier w T s' <= rate_multiplier w T s).
Proof.
  intros Hs. repeat split.
  - now apply lr_range.
  - now apply lr_range.
  - apply lr_warmup.
  - intros Hw. rewrite lr_warmup by exact Hw. unfold Rdiv. apply Rmult_0_l.
  - intros s' Hle Hlt. now apply lr_warmup_mono.
  - apply lr_cosine.
  - intros s' Hw Hle HT. now apply lr_cosine_mono.
Qed.

Lemma rate_multiplier_shape_witness :
  (0 <= 3)%Z
  /\ 0 <= rate_multiplier 10 100 3 <= 1
  /\ rate_multiplier 10 100 3 = 3 / Rmax 1 10
  /\ rate_multiplier 10 100 3 <= rate_multiplier 10 100 7
  /\ rate_multiplier 10 100 90 <= rate_multiplier 10 100 40.
Proof.
  assert (H3 : (0 <= 3)%Z) by lia. assert (H40 : (0 <= 40)%Z) by lia.
  destruct (rate_multiplier_shape 10 100 3 H3) as (Hr & Hw & _ & Hup & _).
  destruct (rate_multiplier_shape 10 100 40 H40) as (_ & _ & _ & _ & _ & Hdown).
  split; [exact H3 |]. split; [exact Hr |].
  split; [apply Hw; lra |].
  split; [apply Hup; [lia | lra] | apply Hdown; [lra | lia | lia]].
Defined.

(** ** The error monad *)

Lemma rbind_Ok {A B : Type} (m : result A) (k : A -> result B) (b : B) :
  rbind m k = Ok b -> exists a, m = Ok a /\ k a = Ok b.
Proof. destruct m as [a | e]; simpl; [eauto | discriminate]. Qed.

Ltac inv_bind H :=
  let a := fresh "a" in
  let Ha := fresh "Ha" in
  apply rbind_Ok in H; destruct H as (a & Ha & H).

(** ** The EMA update *)

Lemma tensor_add_lookup (a b r : tensor) :
  tensor_add a b = Ok r ->
  length r = length a
  /\ forall (i : nat) (x y : R),
       a !! i = Some x -> b !! i = Some y -> r !! i = Some (x + y).
Proof.
  revert b r. induction a as [| x0 a IH]; intros [| y0 b] r H; simpl in H;
    try discriminate.
  - injection H as <-. split; [reflexivity |]. intros i x y Hx. discriminate.
  - inv_bind H. injection H as <-. destruct (IH _ _ Ha) as [Hlen Hnth].
    split; [simpl; congruence |].
    intros [| i] x y Hx Hy; simpl in *.
    + congruence.
    + now apply Hnth.
Qed.

Lemma tensor_add_total (a b : tensor) :
  length a = length b -> is_Ok (tensor_add a b).
Proof.
  revert b. induction a as [| x a IH]; intros [| y b] Hlen; simpl in *;
    try discriminate.
  - now exists [].
  - injection Hlen as Hlen. destruct (IH _ Hlen) as [r Hr].
    exists ((x + y) :: r). now rewrite Hr.
Qed.


Lemma lookup_map {A B : Type} (f : A -> B) (l : list A) (i : nat) :
  map f l !! i = f <$> l !! i.
Proof.
  revert i. induction l as [| a l IH]; intros [| i]; simpl; try reflexivity.
  apply IH.
Qed.

(** Line 512, entry by entry. *)
Lemma ema_value_lookup (d : R) (e v r : tensor) :
  ema_value d e v = Ok r ->
  length r = length e
  /\ forall (i : nat) (x y : R),
       e !! i = Some x -> v !! i = Some y ->
       r !! i = Some (d * x + (1 - d) * y).
Proof.
  unfold ema_value, tensor_mul_scalar, scalar_mul_tensor. intros H.
  apply tensor_add_lookup in H as [Hlen Hnth]. rewrite length_map in Hlen.
  split; [exact Hlen |]. intros i x y Hx Hy.
  rewrite (Hnth i (x * d) ((1 - d) * y)).
  - f_equal. lra.
  - now rewrite lookup_map, Hx.
  - now rewrite lookup_map, Hy.
Qed.

Lemma ema_value_total (d : R) (e v : tensor) :
  length e = length v -> is_Ok (ema_value d e v).
Proof.
  intros Hlen. apply tensor_add_total.
  unfold tensor_mul_scalar, scalar_mul_tensor. now rewrite !length_map.
Qed.

Lemma update_items_keys (nm : bool) (d : R) (msd items items' : state_dict) :
  update_items nm d msd items = Ok items' -> keys items' = keys items.
Proof.
  revert items'. induction items as [| [k e] rest IH]; intros items' H; simpl in H.
  - now injection H as <-.
  - do 3 inv_bind H. injection H as <-. simpl. f_equal. now apply IH.
Qed.

Lemma update_items_getitem (nm : bool) (d : R) (msd items items' : state_dict)
    (k : string) (e : tensor) :
  update_items nm d msd items = Ok items' ->
  getitem items k = Ok e ->
  exists live e',
    getitem msd (live_name nm k) = Ok live
    /\ ema_value d e live = Ok e'
    /\ getitem items' k = Ok e'.
Proof.
  revert items'. induction items as [| [k0 e0] rest IH]; intros items' H Hget;
    simpl in *; [discriminate |].
  do 3 inv_bind H. injection H as <-. simpl.
  destruct (String.eqb k0 k) eqn:Hk.
  - apply String.eqb_eq in Hk. subst k0. injection Hget as ->.
    exists a, a0. now repeat split.
  - now apply IH.
Qed.

Lemma getitem_contains {V : Type} (d : list (string * V)) (k : string) :
  contains d k = false -> getitem d k = Raise (KeyError k).
Proof.
  unfold contains, keys. induction d as [| [k0 v] d IH]; simpl; [reflexivity |].
  intros H. apply orb_false_iff in H as [Hk Hd].
  rewrite String.eqb_sym, Hk. now apply IH.
Qed.

Lemma contains_elem {V : Type} (d : list (string * V)) (k : string) :
  contains d k = true <-> k ∈ keys d.
Proof.
  unfold contains. rewrite existsb_exists. split.
  - intros (x & Hin & Hx). apply String.eqb_eq in Hx. subst x.
    now apply list_elem_of_In.
  - intros Hin. exists k. split; [now apply list_elem_of_In | apply String.eqb_refl].
Qed.



Lemma update_getitem (self self' : ModelEMA) (live : Model) (k : string) (e : tensor) :
  update self live = Ok self' ->
  getitem (ema self) k = Ok e ->
  exists v e',
    getitem (model_state live)
      (live_name (has_module live && negb (ema_has_module self)) k) = Ok v
    /\ getitem (ema self') k = Ok e'
    /\ length e' = length e
    /\ forall (i : nat) (x y : R),
         e !! i = Some x -> v !! i = Some y ->
         e' !! i = Some (decay self * x + (1 - decay self) * y).
Proof.
  unfold update. intros H Hget. inv_bind H. injection H as <-. simpl.
  destruct (update_items_getitem _ _ _ _ _ _ _ Ha Hget) as (v & e' & Hv & He' & Hg).
  apply ema_value_lookup in He' as [Hlen Hnth].
  exists v, e'. now repeat split.
Qed.

Lemma update_items_total (nm : bool) (d : R) (msd items : state_dict) :
  Forall (fun ke => exists v, getitem msd (live_name nm (fst ke)) = Ok v
                              /\ length (snd ke) = length v) items ->
  is_Ok (update_items nm d msd items).
Proof.
  induction 1 as [| [k e] rest (v & Hv & Hlen) _ [rest' IH]]; simpl.
  - now exists [].
  - simpl in Hv, Hlen. rewrite Hv. simpl.
    destruct (ema_value_total d e v Hlen) as [r Hr]. rewrite Hr, IH. simpl.
    now eexists.
Qed.

Lemma update_total (self : ModelEMA) (live : Model) :
  Forall (fun ke =>
            exists v,
              getitem (model_state live)
                (live_name (has_module live && negb (ema_has_module self)) (fst ke)) = Ok v
              /\ length (snd ke) = length v) (ema self) ->
  is_Ok (update self live).
Proof.
  intros H. unfold update.
  destruct (update_items_total _ (decay self) _ _ H) as [r Hr]. rewrite Hr. simpl.
  now eexists.
Qed.

(** One update of the scenario multiplies the shadow weight by 0.9. *)
Lemma update_scenario (x : R) :
  update (shadow_with x) live_zero = Ok (shadow_with (x * 0.9)).
Proof.
  unfold update, shadow_with, live_zero. simpl.
  replace (x * 0.9 + (1 - 0.9) * 0) with (x * 0.9) by lra. reflexivity.
Qed.

Lemma repeat_update_scenario (n : nat) (x : R) :
  repeat_update n (shadow_with x) live_zero = Ok (shadow_with (x * 0.9 ^ n)).
Proof.
  revert x. induction n as [| n IH]; intros x; cbn [repeat_update pow].
  - replace (x * 1) with x by lra. reflexivity.
  - rewrite update_scenario. cbn [rbind]. rewrite IH.
    replace (x * 0.9 * 0.9 ^ n) with (x * (0.9 * 0.9 ^ n)) by lra. reflexivity.
Qed.

Lemma pow_09_pos (n : nat) : 0 < 0.9 ^ n.
Proof. apply pow_lt. lra. Qed.

Lemma pow_09_small (eps : R) :
  0 < eps -> exists N : nat, forall n : nat, (N <= n)%nat -> 10 * 0.9 ^ n < eps.
Proof.
  intros Heps.
  destruct (pow_lt_1_zero 0.9) with (y := eps / 10) as [N HN].
  - rewrite Rabs_pos_eq; lra.
  - lra.
  - exists N. intros n Hn. specialize (HN n Hn).
    rewrite Rabs_pos_eq in HN by (left; apply pow_09_pos). lra.
Qed.

(** C5. Every successful update leaves under each shadow key the value
    [decay * old_shadow + (1 - decay) * live], entry by entry, with the live
    value read from the model passed to the call, and the update succeeds
    when every shadow key finds a live tensor of its size.  With decay 0.9,
    shadow 10 and live 0 the updated shadow is 9; repeated against a live
    value fixed at 0 the shadow is [10 * 0.9 ^ n], which decreases strictly,
    stays positive and falls below every positive bound. *)
Theorem ema_update_exact :
  (forall (self self' : ModelEMA) (live : Model) (k : string) (e : tensor),
     update self live = Ok self' ->
     getitem (ema self) k = Ok e ->
     exists v e',
       getitem (model_state live)
         (live_name (has_module live && negb (ema_has_module self)) k) = Ok v
       /\ getitem (ema self') k = Ok e'
       /\ length e' = length e
       /\ forall (i : nat) (x y : R),
            e !! i = Some x -> v !! i = Some y ->
            e' !! i = Some (decay self * x + (1 - decay self) * y))
  /\ (forall (self : ModelEMA) (live : Model),
        Forall (fun ke =>
                  exists v,
                    getitem (model_state live)
                      (live_name (has_module live && negb (ema_has_module self))
                         (fst ke)) = Ok v
                    /\ length (snd ke) = length v) (ema self) ->
        is_Ok (update self live))
  /\ update (shadow_with 10) live_zero = Ok (shadow_with 9)
  /\ (forall n : nat,
        repeat_update n (shadow_with 10) live_zero = Ok (shadow_with (10 * 0.9 ^ n))
        /\ 0 < 10 * 0.9 ^ S n < 10 * 0.9 ^ n)
  /\ (forall eps : R, 0 < eps ->
        exists N : nat, forall n : nat, (N <= n)%nat -> 10 * 0.9 ^ n < eps).
Proof.
  split; [exact update_getitem |].
  split; [exact update_total |].
  split; [rewrite update_scenario; replace (10 * 0.9) with 9 by lra; reflexivity |].
  split; [| exact pow_09_small].
  intros n. split; [apply repeat_update_scenario |].
  pose proof (pow_09_pos n). simpl. lra.
Qed.

Lemma ema_update_exact_witness :
  update (shadow_with 10) live_zero = Ok (shadow_with 9)
  /\ getitem (ema (shadow_with 10)) "weight" = Ok [10]
  /\ exists v e',
       getitem (model_state live_zero) "weight" = Ok v
       /\ getitem (ema (shadow_with 9)) "weight" = Ok e'
       /\ length e' = 1%nat
       /\ forall (i : nat) (x y : R),
            [10] !! i = Some x -> v !! i = Some y ->
            e' !! i = Some (0.9 * x + (1 - 0.9) * y).
Proof.
  pose proof ema_update_exact as (Hupd & _ & Hsc & _).
  split; [exact Hsc |]. split; [reflexivity |].
  exact (Hupd (shadow_with 10) (shadow_with 9) live_zero "weight"%string [10]
           Hsc eq_refl).
Defined.

(** ** Name reconciliation *)

Lemma keys_setitem {V : Type} (d : list (string * V)) (k0 k : string) (v : V) :
  k ∈ keys (setitem d k0 v) -> k = k0 \/ k ∈ keys d.
Proof.
  unfold keys. induction d as [| [k1 v1] d IH]; simpl; intros Hin.
  - apply elem_of_cons in Hin as [-> | Hin]; [now left | now right].
  - destruct (String.eqb k1 k0); simpl in Hin.
    + now right.
    + apply elem_of_cons in Hin as [-> | Hin].
      * right. apply elem_of_cons. now left.
      * destruct (IH Hin) as [-> | Hd]; [now left |].
        right. apply elem_of_cons. now right.
Qed.

Lemma keys_fold_setitem (b : bool) (saved acc : state_dict) (k : string) :
  k ∈ keys (fold_left (fun d '(k, v) => setitem d (load_name b k) v) saved acc) ->
  k ∈ keys acc \/ exists k', k' ∈ keys saved /\ k = load_name b k'.
Proof.
  revert acc. induction saved as [| [k0 v0] saved IH]; simpl; intros acc Hin.
  - now left.
  - destruct (IH _ Hin) as [Hacc | (k' & Hk' & ->)].
    + apply keys_setitem in Hacc as [-> | Hacc]; [right | now left].
      exists k0. split; [apply elem_of_cons; now left | reflexivity].
    + right. exists k'. split; [apply elem_of_cons; now right | reflexivity].
Qed.


Lemma contains_false {V : Type} (d : list (string * V)) (k : string) :
  contains d k = false <-> k ∉ keys d.
Proof.
  rewrite <- contains_elem. destruct (contains d k).
  - split; [discriminate | intros H; now destruct H].
  - split; [intros _; discriminate | reflexivity].
Qed.



(** The guard of line 492: a checkpoint without a saved shadow state is
    left alone. *)
Lemma _load_checkpoint_without_entry (self : ModelEMA) (checkpoint : gmap string value) :
  checkpoint !! "ema_state_dict"%string = None ->
  _load_checkpoint self checkpoint = Ok self.
Proof. intros H. unfold _load_checkpoint. now rewrite H. Qed.




(** ** The optimizer's parameter groups *)

Section Groups.
Context {P : Type}.
Implicit Types (nps : list (string * P)) (np : string * P).

Lemma decayed_cons np nps :
  decayed (np :: nps)
  = if any_no_decay (fst np) then decayed nps else np :: decayed nps.
Proof.
  unfold decayed. rewrite filter_cons.
  destruct (any_no_decay (fst np)); reflexivity.
Qed.

Lemma not_decayed_cons np nps :
  not_decayed (np :: nps)
  = if any_no_decay (fst np) then np :: not_decayed nps else not_decayed nps.
Proof.
  unfold not_decayed. rewrite filter_cons.
  destruct (any_no_decay (fst np)); reflexivity.
Qed.

Lemma groups_permutation nps : decayed nps ++ not_decayed nps ≡ₚ nps.
Proof.
  induction nps as [| np nps IH]; [reflexivity |].
  rewrite decayed_cons, not_decayed_cons.
  destruct (any_no_decay (fst np)).
  - rewrite <- Permutation_middle. now constructor.
  - simpl. now constructor.
Qed.

Lemma elem_of_decayed np nps :
  np ∈ decayed nps <-> any_no_decay (fst np) = false /\ np ∈ nps.
Proof.
  unfold decayed. rewrite list_elem_of_filter.
  destruct (any_no_decay (fst np)); simpl; intuition discriminate.
Qed.

Lemma elem_of_not_decayed np nps :
  np ∈ not_decayed nps <-> any_no_decay (fst np) = true /\ np ∈ nps.
Proof.
  unfold not_decayed. rewrite list_elem_of_filter.
  destruct (any_no_decay (fst np)); simpl; intuition discriminate.
Qed.

Lemma groups_exactly_one np nps :
  np ∈ nps ->
  (np ∈ decayed nps /\ np ∉ not_decayed nps)
  \/ ((np ∉ decayed nps) /\ np ∈ not_decayed nps).
Proof.
  intros Hin. rewrite elem_of_decayed, elem_of_not_decayed.
  destruct (any_no_decay (fst np)); [right | left]; intuition discriminate.
Qed.

Lemma groups_names_disjoint nps (n : string) :
  n ∈ keys (decayed nps) -> n ∉ keys (not_decayed nps).
Proof.
  unfold keys. intros H1 H2.
  apply list_elem_of_In, in_map_iff in H1 as ([n1 p1] & <- & H1).
  apply list_elem_of_In, in_map_iff in H2 as ([n2 p2] & Heq & H2).
  apply list_elem_of_In, elem_of_decayed in H1 as [H1 _].
  apply list_elem_of_In, elem_of_not_decayed in H2 as [H2 _].
  simpl in *. subst n2. congruence.
Qed.

Lemma keys_Permutation nps nps' : nps ≡ₚ nps' -> keys nps ≡ₚ keys nps'.
Proof. unfold keys. apply Permutation_map. Qed.
End Groups.

(** C7. The two comprehensions of lines 235 and 239 split the named
    parameters: together the two groups hold every parameter exactly once
    (as lists, a permutation of all of them), each named parameter is kept
    by exactly one comprehension, no name occurs in both groups, the names
    of the two groups are the names of the model, and they are distinct
    when the model's names are. *)
Theorem weight_decay_groups_partition {P : Type} (wdecay : R)
    (named_parameters : list (string * P)) :
  map params (grouped_parameters wdecay named_parameters)
  = [map snd (decayed named_parameters); map snd (not_decayed named_parameters)]
  /\ concat (map params (grouped_parameters wdecay named_parameters))
     ≡ₚ map snd named_parameters
  /\ decayed named_parameters ++ not_decayed named_parameters ≡ₚ named_parameters
  /\ (forall np : string * P, np ∈ named_parameters ->
        (np ∈ decayed named_parameters /\ np ∉ not_decayed named_parameters)
        \/ ((np ∉ decayed named_parameters) /\ np ∈ not_decayed named_parameters))
  /\ (forall n : string,
        n ∈ keys (decayed named_parameters) ->
        n ∉ keys (not_decayed named_parameters))
  /\ (forall n : string,
        n ∈ keys (decayed named_parameters) ++ keys (not_decayed named_parameters)
        <-> n ∈ keys named_parameters)
  /\ (NoDup (keys named_parameters) ->
      NoDup (keys (decayed named_parameters) ++ keys (not_decayed named_parameters))).
Proof.
  pose proof (groups_permutation named_parameters) as Hperm.
  assert (Hkeys : keys (decayed named_parameters) ++ keys (not_decayed named_parameters)
                  ≡ₚ keys named_parameters).
  { unfold keys. rewrite <- map_app. now apply Permutation_map. }
  split; [reflexivity |].
  split.
  { simpl. rewrite app_nil_r, <- map_app. now apply Permutation_map. }
  split; [exact Hperm |].
  split; [intros np; apply groups_exactly_one |].
  split; [apply groups_names_disjoint |].
  split.
  - intros n. now rewrite Hkeys.
  - intros Hnd. now rewrite Hkeys.
Qed.

Lemma weight_decay_groups_partition_witness :
  NoDup (keys [("conv1.weight"%string, 1%nat); ("conv1.bias"%string, 2%nat);
               ("block1.bn1.weight"%string, 3%nat)])
  /\ NoDup (keys (decayed [("conv1.weight"%string, 1%nat); ("conv1.bias"%string, 2%nat);
                           ("block1.bn1.weight"%string, 3%nat)])
            ++ keys (not_decayed [("conv1.weight"%string, 1%nat);
                                  ("conv1.bias"%string, 2%nat);
                                  ("block1.bn1.weight"%string, 3%nat)])).
Proof.
  assert (Hnd : NoDup (keys [("conv1.weight"%string, 1%nat); ("conv1.bias"%string, 2%nat);
                             ("block1.bn1.weight"%string, 3%nat)])) by compute_done.
  split; [exact Hnd |].
  exact (proj2 (proj2 (proj2 (proj2 (proj2 (proj2
           (weight_decay_groups_partition 0 _)))))) Hnd).
Defined.

(** C10. The first group carries the coefficient [2 * wdecay] and the
    parameters that the no-decay names do not match, the second group the
    coefficient 0 and the matched ones; for a non-zero [wdecay] the first
    coefficient differs from [wdecay] itself. *)
Theorem weight_decay_is_doubled {P : Type} (wdecay : R)
    (named_parameters : list (string * P)) :
  exists g_decay g_no_decay : param_group P,
    grouped_parameters wdecay named_parameters = [g_decay; g_no_decay]
    /\ params g_decay = map snd (decayed named_parameters)
    /\ weight_decay g_decay = 2 * wdecay
    /\ params g_no_decay = map snd (not_decayed named_parameters)
    /\ weight_decay g_no_decay = 0
    /\ (wdecay <> 0 -> weight_decay g_decay <> wdecay).
Proof.
  unfold grouped_parameters. do 2 eexists. split; [reflexivity |]. simpl.
  repeat split; lra.
Qed.

Lemma weight_decay_is_doubled_witness :
  (5 / 10000 <> 0)
  /\ map weight_decay
       (grouped_parameters (5 / 10000) [("conv1.weight"%string, 1%nat)])
     = [2 * (5 / 10000); 0]
  /\ 2 * (5 / 10000) <> 5 / 10000.
Proof.
  destruct (weight_decay_is_doubled (5 / 10000) [("conv1.weight"%string, 1%nat)])
    as (g0 & g1 & Hg & _ & Hw0 & _ & Hw1 & Hne).
  assert (Hnz : 5 / 10000 <> 0) by lra.
  split; [exact Hnz |]. split.
  - rewrite Hg. simpl. now rewrite Hw0, Hw1.
  - rewrite <- Hw0. exact (Hne Hnz).
Defined.

(** ** Pseudo-labels, the mask and the losses *)

Lemma max_scan_spec (l pre : list R) (best : R) (bi : nat) (m : R) (j : nat) :
  pre !! bi = Some best ->
  (forall i x, pre !! i = Some x -> x <= best) ->
  (forall i x, (i < bi)%nat -> pre !! i = Some x -> x < best) ->
  max_scan best bi (length pre) l = (m, j) ->
  (pre ++ l) !! j = Some m
  /\ (forall i x, (pre ++ l) !! i = Some x -> x <= m)
  /\ (forall i x, (i < j)%nat -> (pre ++ l) !! i = Some x -> x < m).
Proof.
  revert pre best bi. induction l as [| y l IH]; intros pre best bi Hbi Hle Hlt H;
    simpl in H.
  - injection H as <- <-. rewrite app_nil_r. now repeat split.
  - replace (pre ++ y :: l) with ((pre ++ [y]) ++ l) by now rewrite <- app_assoc.
    replace (S (length pre)) with (length (pre ++ [y])) in H
      by (rewrite length_app; simpl; lia).
    destruct (Rlt_dec best y) as [Hby | Hby].
    + apply IH in H; [exact H | | |].
      * now rewrite lookup_app_r, Nat.sub_diag by lia.
      * intros i x Hx. apply lookup_app_Some in Hx as [Hx | [_ Hx]].
        -- apply Hle in Hx. lra.
        -- apply list_lookup_singleton_Some in Hx as [_ <-]. lra.
      * intros i x Hi Hx. rewrite lookup_app_l in Hx by exact Hi.
        apply Hle in Hx. lra.
    + apply IH in H; [exact H | | |].
      * rewrite lookup_app_l; [exact Hbi | now apply lookup_lt_Some in Hbi].
      * intros i x Hx. apply lookup_app_Some in Hx as [Hx | [_ Hx]].
        -- now apply Hle in Hx.
        -- apply list_lookup_singleton_Some in Hx as [_ <-]. lra.
      * intros i x Hi Hx. apply lookup_lt_Some in Hbi.
        rewrite lookup_app_l in Hx by lia. now apply (Hlt i).
Qed.

(** [torch.max] returns the largest entry and the first index holding it. *)
Lemma torch_max_spec (row : list R) (m : R) (j : nat) :
  torch_max row = Ok (m, j) ->
  row !! j = Some m
  /\ (forall i x, row !! i = Some x -> x <= m)
  /\ (forall i x, (i < j)%nat -> row !! i = Some x -> x < m).
Proof.
  destruct row as [| x l]; simpl; [discriminate |]. intros H. injection H as H.
  apply (max_scan_spec l [x] x 0%nat); [reflexivity | | | exact H].
  - intros [| i] y Hy; simpl in Hy; [| discriminate]. injection Hy as <-. lra.
  - intros i y Hi. lia.
Qed.

Lemma torch_max_total (row : list R) : row <> [] -> is_Ok (torch_max row).
Proof. destruct row as [| x l]; [congruence |]. intros _. simpl. now eexists. Qed.

Lemma rmap_lookup {A B : Type} (f : A -> result B) (l : list A) (r : list B) :
  rmap f l = Ok r ->
  length r = length l
  /\ forall (i : nat) (a : A), l !! i = Some a ->
       exists b, f a = Ok b /\ r !! i = Some b.
Proof.
  revert r. induction l as [| a0 l IH]; intros r H; simpl in H.
  - injection H as <-. split; [reflexivity | intros i a Ha; discriminate].
  - do 2 inv_bind H. injection H as <-. destruct (IH _ Ha0) as [Hlen Hnth].
    split; [simpl; congruence |].
    intros [| i] a' Ha'; simpl in *.
    + injection Ha' as <-. now exists a.
    + now apply Hnth.
Qed.

Lemma rmap_total {A B : Type} (f : A -> result B) (l : list A) :
  Forall (fun a => is_Ok (f a)) l -> is_Ok (rmap f l).
Proof.
  induction 1 as [| a l [b Hb] _ [bs IH]]; simpl.
  - now eexists.
  - rewrite Hb, IH. simpl. now eexists.
Qed.

(** Per example, the cross-entropy is minus the logarithm of the softmax
    probability of the target class. *)
Lemma cross_entropy_rows_lookup (logits : list (list R)) (targets : list nat)
    (cs : list R) :
  cross_entropy_rows logits targets = Ok cs ->
  length cs = length logits /\ length targets = length logits
  /\ forall (i : nat) (row : list R) (t : nat),
       logits !! i = Some row -> targets !! i = Some t ->
       exists p, softmax row !! t = Some p /\ cs !! i = Some (- ln p).
Proof.
  revert targets cs.
  induction logits as [| row0 logits IH]; intros [| t0 targets] cs H; simpl in H;
    try discriminate.
  - injection H as <-. repeat split. intros i row t Hrow. discriminate.
  - do 2 inv_bind H. injection H as <-.
    destruct (IH _ _ Ha0) as (Hlen & Hlen' & Hnth).
    split; [simpl; congruence |]. split; [simpl; congruence |].
    intros [| i] row t Hrow Ht; simpl in *.
    + injection Hrow as <-. injection Ht as <-.
      unfold cross_entropy_row in Ha.
      destruct (softmax row0 !! t0) as [p |] eqn:Hp; [| discriminate].
      injection Ha as <-. now exists p.
    + now apply Hnth.
Qed.

Lemma softmax_length (row : list R) : length (softmax row) = length row.
Proof. unfold softmax. apply length_map. Qed.

Lemma cross_entropy_rows_total (C : nat) (logits : list (list R)) (targets : list nat) :
  length targets = length logits ->
  Forall (fun row => length row = C) logits ->
  Forall (fun t => (t < C)%nat) targets ->
  is_Ok (cross_entropy_rows logits targets).
Proof.
  revert targets.
  induction logits as [| row logits IH]; intros [| t targets] Hlen Hrows Hts;
    simpl in *; try discriminate.
  - now eexists.
  - apply Forall_cons in Hrows as [Hrow Hrows]. apply Forall_cons in Hts as [Ht Hts].
    destruct (IH targets) as [cs Hcs]; [congruence | assumption | assumption |].
    unfold cross_entropy_row.
    destruct (softmax row !! t) as [p |] eqn:Hp.
    + simpl. rewrite Hcs. simpl. now eexists.
    + apply lookup_ge_None in Hp. rewrite softmax_length in Hp. lia.
Qed.

Lemma train_losses_inv (threshold lambda_u : R) (logits_x : list (list R))
    (targets_x : list nat) (logits_u_w logits_u_s : list (list R)) (r : step_losses) :
  train_losses threshold lambda_u logits_x targets_x logits_u_w logits_u_s = Ok r ->
  exists (cx : list R) (mx : list (R * nat)) (ce : list R),
    cross_entropy_rows logits_x targets_x = Ok cx
    /\ rmap torch_max (map softmax logits_u_w) = Ok mx
    /\ cross_entropy_rows logits_u_s (map snd mx) = Ok ce
    /\ Lx r = mean cx
    /\ max_probs r = map fst mx
    /\ targets_u r = map snd mx
    /\ mask r = map (fun p => ge_float p threshold) (map fst mx)
    /\ Lu r = mean (tensor_mul ce (mask r))
    /\ loss r = Lx r + lambda_u * Lu r.
Proof.
  unfold train_losses, cross_entropy_mean, cross_entropy_none. intros H.
  inv_bind H. inv_bind Ha. injection Ha as <-. do 2 inv_bind H. injection H as <-.
  exists a0, a, a1. simpl. now repeat split.
Qed.

Lemma ge_float_cases (p threshold : R) :
  (p >= threshold -> ge_float p threshold = 1)
  /\ (~ p >= threshold -> ge_float p threshold = 0)
  /\ (ge_float p threshold = 1 \/ ge_float p threshold = 0).
Proof.
  unfold ge_float. destruct (Rge_dec p threshold); repeat split; intros;
    try reflexivity; try contradiction; [now left | now right].
Qed.

(** A masked entry of the product is 0 whatever the cross-entropy there. *)
Lemma masked_product (ce msk : list R) (i : nat) (c : R) :
  msk !! i = Some 0 ->
  tensor_mul (<[i := c]> ce) msk = tensor_mul ce msk.
Proof.
  unfold tensor_mul. revert msk i.
  induction ce as [| c0 ce IH]; intros [| m0 msk] [| i] Hm; simpl in *;
    try reflexivity; try discriminate.
  - injection Hm as ->. f_equal. lra.
  - f_equal. now apply IH.
Qed.

Lemma masked_entry (ce msk : list R) (i : nat) :
  (i < length ce)%nat -> msk !! i = Some 0 -> tensor_mul ce msk !! i = Some 0.
Proof.
  unfold tensor_mul. intros Hi Hm. rewrite lookup_zip_with, Hm.
  destruct (lookup_lt_is_Some_2 ce i Hi) as [c Hc]. rewrite Hc. simpl.
  f_equal. lra.
Qed.

Lemma tensor_mul_comm (a b : list R) :
  tensor_mul a b = zip_with (fun y x => y * x) b a.
Proof.
  unfold tensor_mul. revert b. induction a as [| x a IH]; intros [| y b]; simpl;
    try reflexivity.
  f_equal; [lra | apply IH].
Qed.

Lemma torch_max_index (row : list R) (m : R) (j : nat) :
  torch_max row = Ok (m, j) -> (j < length row)%nat.
Proof. intros H. apply torch_max_spec in H as [H _]. now apply lookup_lt_Some in H. Qed.

Lemma pseudo_labels_in_range (C : nat) (logits : list (list R)) (mx : list (R * nat)) :
  Forall (fun row => length row = C) logits ->
  rmap torch_max (map softmax logits) = Ok mx ->
  Forall (fun t => (t < C)%nat) (map snd mx).
Proof.
  revert mx. induction logits as [| row logits IH]; intros mx Hrows H; simpl in H.
  - injection H as <-. constructor.
  - apply Forall_cons in Hrows as [Hrow Hrows]. do 2 inv_bind H. injection H as <-.
    simpl. constructor; [| now apply IH].
    destruct a as [m j]. apply torch_max_index in Ha.
    rewrite softmax_length in Ha. simpl. lia.
Qed.

(** The step computes its losses whenever the batch is well formed: every
    row of logits has [C > 0] classes, the labels are classes, and the
    sizes of the segments agree. *)
Lemma train_losses_total (C : nat) (threshold lambda_u : R)
    (logits_x : list (list R)) (targets_x : list nat)
    (logits_u_w logits_u_s : list (list R)) :
  (0 < C)%nat ->
  length targets_x = length logits_x ->
  length logits_u_s = length logits_u_w ->
  Forall (fun row => length row = C) logits_x ->
  Forall (fun t => (t < C)%nat) targets_x ->
  Forall (fun row => length row = C) logits_u_w ->
  Forall (fun row => length row = C) logits_u_s ->
  is_Ok (train_losses threshold lambda_u logits_x targets_x logits_u_w logits_u_s).
Proof.
  intros HC Hlx Hlu Hx Htx Hw Hs.
  unfold train_losses, cross_entropy_mean, cross_entropy_none.
  destruct (cross_entropy_rows_total C _ _ Hlx Hx Htx) as [cx Hcx].
  rewrite Hcx. simpl.
  destruct (rmap_total torch_max (map softmax logits_u_w)) as [mx Hmx].
  { apply Forall_forall. intros row Hin.
    apply list_elem_of_In, in_map_iff in Hin as (row0 & <- & Hin).
    apply list_elem_of_In in Hin.
    apply torch_max_total. intros Hnil.
    rewrite Forall_forall in Hw. specialize (Hw _ Hin).
    apply (f_equal length) in Hnil. rewrite softmax_length in Hnil. simpl in Hnil. lia. }
  rewrite Hmx. simpl.
  destruct (cross_entropy_rows_total C logits_u_s (map snd mx)) as [ce Hce].
  - apply rmap_lookup in Hmx as [Hlen _]. rewrite !length_map in *. congruence.
  - exact Hs.
  - now apply (pseudo_labels_in_range C logits_u_w).
  - rewrite Hce. simpl. now eexists.
Qed.

(** C2. For every unlabeled example the mask entry is 1 when the largest
    softmax probability of the weak view reaches the threshold and 0
    otherwise, never another value; the pseudo-label is the (first) index of
    that largest probability; and an example whose mask is 0 adds 0 to the
    sum behind [Lu] whatever its cross-entropy is.  The step returns these
    values on every well-formed batch. *)
Theorem pseudo_label_mask (threshold lambda_u : R) (logits_x : list (list R))
    (targets_x : list nat) (logits_u_w logits_u_s : list (list R)) :
  (forall r : step_losses,
     train_losses threshold lambda_u logits_x targets_x logits_u_w logits_u_s = Ok r ->
     length (mask r) = length logits_u_w
     /\ length (targets_u r) = length logits_u_w
     /\ (forall (i : nat) (row : list R),
           logits_u_w !! i = Some row ->
           exists (conf : R) (label : nat) (m : R),
             max_probs r !! i = Some conf
             /\ targets_u r !! i = Some label
             /\ mask r !! i = Some m
             /\ softmax row !! label = Some conf
             /\ (forall j p, softmax row !! j = Some p -> p <= conf)
             /\ (forall j p, (j < label)%nat -> softmax row !! j = Some p -> p < conf)
             /\ (conf >= threshold -> m = 1)
             /\ (~ conf >= threshold -> m = 0)
             /\ (m = 1 \/ m = 0))
     /\ exists ce : list R,
          cross_entropy_none logits_u_s (targets_u r) = Ok ce
          /\ length ce = length logits_u_w
          /\ Lu r = mean (tensor_mul ce (mask r))
          /\ forall i : nat,
               mask r !! i = Some 0 ->
               tensor_mul ce (mask r) !! i = Some 0
               /\ forall c : R,
                    tensor_mul (<[i := c]> ce) (mask r) = tensor_mul ce (mask r))
  /\ (forall C : nat,
        (0 < C)%nat ->
        length targets_x = length logits_x ->
        length logits_u_s = length logits_u_w ->
        Forall (fun row => length row = C) logits_x ->
        Forall (fun t => (t < C)%nat) targets_x ->
        Forall (fun row => length row = C) logits_u_w ->
        Forall (fun row => length row = C) logits_u_s ->
        is_Ok (train_losses threshold lambda_u logits_x targets_x
                 logits_u_w logits_u_s)).
Proof.
  split; [| intros C; apply train_losses_total].
  intros r H.
  apply train_losses_inv in H
    as (cx & mx & ce & Hcx & Hmx & Hce & HLx & Hmp & Htu & Hmask & HLu & Hloss).
  pose proof (rmap_lookup _ _ _ Hmx) as [Hlen Hnth]. rewrite length_map in Hlen.
  pose proof (cross_entropy_rows_lookup _ _ _ Hce) as (Hlce & Hlt & _).
  rewrite length_map in Hlt.
  split; [rewrite Hmask, !length_map; exact Hlen |].
  split; [rewrite Htu, length_map; exact Hlen |].
  split.
  - intros i row Hrow.
    destruct (Hnth i (softmax row)) as ([conf label] & Hmax & Hi).
    { now rewrite lookup_map, Hrow. }
    apply torch_max_spec in Hmax as (Hconf & Hle & Hfirst).
    exists conf, label, (ge_float conf threshold).
    rewrite Hmp, Htu, Hmask, !lookup_map, Hi. simpl.
    destruct (ge_float_cases conf threshold) as (H1 & H0 & H10).
    now repeat split.
  - exists ce. unfold cross_entropy_none. rewrite Htu.
    split; [exact Hce |]. split; [congruence |]. split; [exact HLu |].
    intros i Hm. split.
    + apply masked_entry; [| exact Hm]. apply lookup_lt_Some in Hm.
      rewrite Hmask, !length_map in Hm. lia.
    + intros c. now apply masked_product.
Qed.

Lemma pseudo_label_mask_witness :
  exists r : step_losses,
    train_losses 0.95 1 [[1; 2]] [1%nat] [[3; 0]; [0; 0]] [[0; 1]; [1; 0]] = Ok r
    /\ length (mask r) = 2%nat
    /\ length (targets_u r) = 2%nat.
Proof.
  destruct (pseudo_label_mask 0.95 1 [[1; 2]] [1%nat] [[3; 0]; [0; 0]] [[0; 1]; [1; 0]])
    as [Hspec Htotal].
  destruct (Htotal 2%nat) as [r Hr];
    [lia | reflexivity | reflexivity | repeat constructor ..].
  exists r. split; [exact Hr |].
  destruct (Hspec r Hr) as (Hm & Ht & _). now split.
Defined.

(** C3. In a step that computes its losses, [Lx] is the mean of the
    per-example cross-entropies of the labeled logits against the labels,
    [Lu] is the sum over the unlabeled batch of
    [mask[i] * cross_entropy(logits_strong[i], pseudo_label[i])] divided by
    the size of that batch, and the loss handed to the backward pass is
    [Lx + lambda_u * Lu].  The step computes them on every well-formed
    batch. *)
Theorem step_loss_formulas (threshold lambda_u : R) (logits_x : list (list R))
    (targets_x : list nat) (logits_u_w logits_u_s : list (list R)) :
  (forall r : step_losses,
     train_losses threshold lambda_u logits_x targets_x logits_u_w logits_u_s = Ok r ->
     (exists cx : list R,
        cross_entropy_none logits_x targets_x = Ok cx
        /\ length cx = length logits_x
        /\ (forall (i : nat) (row : list R) (t : nat),
              logits_x !! i = Some row -> targets_x !! i = Some t ->
              exists p, softmax row !! t = Some p /\ cx !! i = Some (- ln p))
        /\ Lx r = sum_R cx / INR (length logits_x))
     /\ (exists ce : list R,
           cross_entropy_none logits_u_s (targets_u r) = Ok ce
           /\ length ce = length logits_u_w
           /\ length (mask r) = length logits_u_w
           /\ (forall (i : nat) (row : list R) (t : nat),
                 logits_u_s !! i = Some row -> targets_u r !! i = Some t ->
                 exists p, softmax row !! t = Some p /\ ce !! i = Some (- ln p))
           /\ Lu r = sum_R (zip_with (fun m c => m * c) (mask r) ce)
                     / INR (length logits_u_w))
     /\ loss r = Lx r + lambda_u * Lu r)
  /\ (forall C : nat,
        (0 < C)%nat ->
        length targets_x = length logits_x ->
        length logits_u_s = length logits_u_w ->
        Forall (fun row => length row = C) logits_x ->
        Forall (fun t => (t < C)%nat) targets_x ->
        Forall (fun row => length row = C) logits_u_w ->
        Forall (fun row => length row = C) logits_u_s ->
        is_Ok (train_losses threshold lambda_u logits_x targets_x
                 logits_u_w logits_u_s)).
Proof.
  split; [| intros C; apply train_losses_total].
  intros r H.
  apply train_losses_inv in H
    as (cx & mx & ce & Hcx & Hmx & Hce & HLx & Hmp & Htu & Hmask & HLu & Hloss).
  pose proof (rmap_lookup _ _ _ Hmx) as [Hlen _]. rewrite length_map in Hlen.
  pose proof (cross_entropy_rows_lookup _ _ _ Hcx) as (Hlcx & _ & Hcxi).
  pose proof (cross_entropy_rows_lookup _ _ _ Hce) as (Hlce & Hlt & Hcei).
  rewrite length_map in Hlt.
  assert (Hlm : length (mask r) = length logits_u_w)
    by (rewrite Hmask, !length_map; exact Hlen).
  split; [| split; [| exact Hloss]].
  - exists cx. unfold cross_entropy_none.
    split; [exact Hcx |]. split; [exact Hlcx |]. split; [exact Hcxi |].
    rewrite HLx. unfold mean. now rewrite Hlcx.
  - exists ce. unfold cross_entropy_none. rewrite Htu.
    split; [exact Hce |]. split; [congruence |]. split; [exact Hlm |].
    split; [exact Hcei |].
    rewrite HLu. unfold mean. rewrite tensor_mul_comm. f_equal. f_equal.
    rewrite length_zip_with, Hlm. lia.
Qed.

Lemma step_loss_formulas_witness :
  exists r : step_losses,
    train_losses 0.95 1 [[1; 2]] [1%nat] [[3; 0]; [0; 0]] [[0; 1]; [1; 0]] = Ok r
    /\ loss r = Lx r + 1 * Lu r.
Proof.
  destruct (step_loss_formulas 0.95 1 [[1; 2]] [1%nat] [[3; 0]; [0; 0]] [[0; 1]; [1; 0]])
    as [Hspec Htotal].
  destruct (Htotal 2%nat) as [r Hr];
    [lia | reflexivity | reflexivity | repeat constructor ..].
  exists r. split; [exact Hr |].
  now destruct (Hspec r Hr) as (_ & _ & Hloss).
Defined.

(** ** The epoch loop and the best accuracy *)

Section EpochLoopFacts.
Context {Bx Bu : Type}.
Variable body : learner -> nat -> Bx -> Bu -> result learner.
Variable test : Model + ModelEMA -> Z -> R.
Variables (labeled_trainloader : list Bx) (unlabeled_trainloader : list Bu).

Local Abbreviation epoch_body' := (epoch_body body test labeled_trainloader unlabeled_trainloader).
Local Abbreviation epochs_from' := (epochs_from body test labeled_trainloader unlabeled_trainloader).




End EpochLoopFacts.



Lemma max_so_far_ge_init (accs : list R) (b : R) : b <= max_so_far b accs.
Proof.
  unfold max_so_far. induction accs as [| a accs IH]; simpl; [lra |].
  pose proof (Rmax_r a (fold_right Rmax b accs)). lra.
Qed.



Lemma max_so_far_app (a1 a2 : list R) (b : R) :
  max_so_far b a1 <= max_so_far b (a1 ++ a2).
Proof.
  unfold max_so_far. rewrite fold_right_app.
  induction a1 as [| c a1 IH]; simpl.
  - apply (max_so_far_ge_init a2 b).
  - now apply Rle_max_compat_l.
Qed.





(** ** Checkpoints: what is saved and what resume reads *)

Lemma rbind_Raise_tail {A B : Type} (m : result A) (k : A -> result B) :
  (forall a, exists e, k a = Raise e) -> exists e, rbind m k = Raise e.
Proof. intros Hk. destruct m as [a | e]; simpl; [apply Hk | now exists e]. Qed.

Lemma checkpoint_record_fields (epoch : Z) (l : learner) (test_acc best : R) :
  ckpt_get (checkpoint_record epoch l test_acc best) "epoch" = Ok (VInt (epoch + 1))
  /\ ckpt_get (checkpoint_record epoch l test_acc best) "best_acc" = Ok (VFloat best)
  /\ ckpt_get (checkpoint_record epoch l test_acc best) "optimizer"
     = Ok (VOptimizer (optimizer l))
  /\ ckpt_get (checkpoint_record epoch l test_acc best) "scheduler"
     = Ok (VScheduler (scheduler l))
  /\ ckpt_get (checkpoint_record epoch l test_acc best) "schduler"
     = Raise (KeyError "schduler").
Proof.
  unfold ckpt_get, checkpoint_record. repeat split; now simplify_map_eq.
Qed.

Lemma resume_raises (epoch : Z) (l l0 : learner) (test_acc best : R) :
  exists e, resume (checkpoint_record epoch l test_acc best) l0 = Raise e.
Proof.
  unfold resume. do 13 (apply rbind_Raise_tail; intros ?).
  destruct (checkpoint_record_fields epoch l test_acc best) as (_ & _ & _ & _ & H).
  rewrite H. simpl. now eexists.
Qed.

Lemma getitem_NoDup {V : Type} (d : list (string * V)) (k : string) (v : V) :
  NoDup (keys d) -> (k, v) ∈ d -> getitem d k = Ok v.
Proof.
  unfold keys. induction d as [| [k0 v0] d IH]; simpl; intros Hnd Hin.
  - now apply elem_of_nil in Hin.
  - apply NoDup_cons in Hnd as [Hk0 Hnd].
    apply elem_of_cons in Hin as [Heq | Hin].
    + injection Heq as -> ->. now rewrite String.eqb_refl.
    + destruct (String.eqb k0 k) eqn:Hk; [| now apply IH].
      apply String.eqb_eq in Hk. subst k0. exfalso. apply Hk0.
      apply list_elem_of_In, in_map_iff. exists (k, v).
      split; [reflexivity | now apply list_elem_of_In].
Qed.

Lemma filter_absent_nil {V : Type} (d : list (string * V)) (l : list string) :
  (forall k, k ∈ l -> k ∈ keys d) ->
  filter (fun k => negb (contains d k)) l = [].
Proof.
  induction l as [| k l IH]; intros Hl; [reflexivity |].
  rewrite filter_cons.
  assert (Hk : contains d k = true).
  { apply contains_elem, Hl, elem_of_cons. now left. }
  rewrite Hk. simpl. apply IH. intros k' Hk'. apply Hl, elem_of_cons. now right.
Qed.

Lemma rmap_fixed {A : Type} (f : A -> result A) (l : list A) :
  Forall (fun a => f a = Ok a) l -> rmap f l = Ok l.
Proof.
  induction 1 as [| a l Ha _ IH]; simpl; [reflexivity |]. now rewrite Ha, IH.
Qed.

(** Loading a module's own state dictionary succeeds and changes nothing. *)
Lemma load_state_dict_self (d : state_dict) :
  NoDup (keys d) -> load_state_dict d d = Ok d.
Proof.
  intros Hnd. unfold load_state_dict.
  rewrite (filter_absent_nil d (keys d)) by auto.
  apply rmap_fixed, Forall_forall. intros [k v] Hin.
  rewrite (getitem_NoDup d k v Hnd Hin). simpl. now rewrite Nat.eqb_refl.
Qed.

(** Resuming the objects that wrote a checkpoint, unwrapped and with a
    shadow model, gets as far as the scheduler and stops at the key
    ["schduler"]. *)
Lemma resume_same_objects (epoch : Z) (l : learner) (shadow : ModelEMA)
    (test_acc best : R) :
  ema_model l = Some shadow ->
  has_module (model l) = false ->
  ema_has_module shadow = false ->
  NoDup (keys (model_state (model l))) ->
  NoDup (keys (ema shadow)) ->
  resume (checkpoint_record epoch l test_acc best) l = Raise (KeyError "schduler").
Proof.
  intros Hema Hm He Hnd Hnde.
  destruct (checkpoint_record_fields epoch l test_acc best)
    as (Hepoch & Hbest & Hopt & _ & Hsch).
  unfold resume. rewrite Hbest, Hepoch, Hopt, Hsch.
  unfold ckpt_get, checkpoint_record. simplify_map_eq. rewrite Hm, He.
  cbn [state_to_save]. rewrite !load_state_dict_self by assumption.
  cbn [rbind]. now rewrite Nat.eqb_refl.
Qed.

(** C1 (the code departs from the claim).  The record written at the end of
    epoch [epoch] stores [epoch + 1] under ["epoch"] and the scheduler's
    state under ["scheduler"], and has no key ["schduler"]; line 272 reads
    ["schduler"], so resuming from a record that the save path wrote always
    raises, and with the objects that wrote it the exception is
    [KeyError "schduler"]. *)
Theorem resume_reads_misspelt_scheduler_key :
  (forall (epoch : Z) (l : learner) (test_acc best : R),
     ckpt_get (checkpoint_record epoch l test_acc best) "epoch" = Ok (VInt (epoch + 1))
     /\ ckpt_get (checkpoint_record epoch l test_acc best) "scheduler"
        = Ok (VScheduler (scheduler l))
     /\ ckpt_get (checkpoint_record epoch l test_acc best) "schduler"
        = Raise (KeyError "schduler"))
  /\ (forall (epoch : Z) (l l0 : learner) (test_acc best : R),
        exists e, resume (checkpoint_record epoch l test_acc best) l0 = Raise e)
  /\ (forall (epoch : Z) (l : learner) (shadow : ModelEMA) (test_acc best : R),
        ema_model l = Some shadow ->
        has_module (model l) = false ->
        ema_has_module shadow = false ->
        NoDup (keys (model_state (model l))) ->
        NoDup (keys (ema shadow)) ->
        resume (checkpoint_record epoch l test_acc best) l
        = Raise (KeyError "schduler"))
  /\ resume (checkpoint_record 0 scenario_learner 70 70) scenario_learner
     = Raise (KeyError "schduler").
Proof.
  split; [| split; [exact resume_raises | split; [exact resume_same_objects |]]].
  - intros epoch l test_acc best.
    destruct (checkpoint_record_fields epoch l test_acc best) as (H1 & _ & _ & H2 & H3).
    now repeat split.
  - apply (resume_same_objects 0 scenario_learner (shadow_with 10));
      try reflexivity; compute_done.
Qed.

Lemma resume_reads_misspelt_scheduler_key_witness :
  ema_model scenario_learner = Some (shadow_with 10)
  /\ resume (checkpoint_record 3 scenario_learner 75 80) scenario_learner
     = Raise (KeyError "schduler").
Proof.
  split; [reflexivity |].
  apply (proj1 (proj2 (proj2 resume_reads_misspelt_scheduler_key))
           3%Z scenario_learner (shadow_with 10) 75 80);
    try reflexivity; compute_done.
Defined.

(** ** Data loaders and the iterations of an epoch *)







(** * Further properties of the script *)

(** ** The schedule beyond the claims *)

(** X1. Between the end of the warmup and the last step the clamp of line 59
    is inactive: the multiplier is the cosine itself, it is at least
    [cos(7 pi / 16)] and strictly positive. *)
Theorem lr_positive_until_total (w : R) (T s : Z) :
  w <= IZR s -> (s <= T)%Z ->
  rate_multiplier w T s
  = cos (PI * (7 / 16) * ((IZR s - w) / Rmax 1 (IZR T - w)))
  /\ cos (PI * (7 / 16)) <= rate_multiplier w T s
  /\ 0 < rate_multiplier w T s.
Proof.
  intros Hw HT. rewrite lr_cosine by lra.
  destruct (progress_unit w T s Hw HT) as [Hp0 Hp1].
  pose proof PI_RGT_0 as Hpi.
  set (p := (IZR s - w) / Rmax 1 (IZR T - w)) in *.
  assert (Hpos : 0 < cos (PI * (7 / 16) * p)) by (apply cos_gt_0; nra).
  rewrite Rmax_right by lra. split; [reflexivity |]. split; [| exact Hpos].
  apply cos_decr_1; nra.
Qed.

Lemma lr_positive_until_total_witness :
  0 <= IZR 100 /\ (100 <= 100)%Z /\ 0 < rate_multiplier 0 100 100.
Proof.
  assert (H0 : 0 <= IZR 100) by lra. assert (H1 : (100 <= 100)%Z) by lia.
  split; [exact H0 |]. split; [exact H1 |].
  exact (proj2 (proj2 (lr_positive_until_total 0 100 100 H0 H1))).
Defined.



(** X3. During the warmup the multiplier stays strictly below 1, and at the
    step that equals the warmup length it is exactly 1. *)
Theorem lr_peak_at_warmup_end (w : R) (T s : Z) :
  (IZR s < w -> rate_multiplier w T s < 1)
  /\ (IZR s = w -> rate_multiplier w T s = 1).
Proof.
  split.
  - intros Hlt. rewrite lr_warmup by exact Hlt.
    pose proof (Rmax_1_pos w) as Hpos. pose proof (Rmax_r 1 w) as Hr.
    apply (Rmult_lt_reg_r (Rmax 1 w)); [exact Hpos |].
    unfold Rdiv. rewrite Rmult_assoc, Rinv_l by lra. lra.
  - intros Heq. rewrite lr_cosine by lra. rewrite Heq.
    replace (PI * (7 / 16) * ((w - w) / Rmax 1 (IZR T - w))) with 0
      by (unfold Rdiv; rewrite Rminus_diag; ring).
    rewrite cos_0. apply Rmax_right. lra.
Qed.

Lemma lr_peak_at_warmup_end_witness :
  rate_multiplier 10 100 9 < 1 /\ rate_multiplier 10 100 10 = 1.
Proof.
  split.
  - apply (proj1 (lr_peak_at_warmup_end 10 100 9)). lra.
  - apply (proj2 (lr_peak_at_warmup_end 10 100 10)). lra.
Defined.

(** ** The shadow model beyond the claims *)





Lemma update_items_sizes (nm : bool) (d : R) (msd items items' : state_dict) :
  update_items nm d msd items = Ok items' ->
  Forall2 (fun a b => fst a = fst b /\ length (snd a) = length (snd b)) items items'.
Proof.
  revert items'. induction items as [| [k e] rest IH]; intros items' H; simpl in H.
  - injection H as <-. constructor.
  - do 3 inv_bind H. injection H as <-.
    apply ema_value_lookup in Ha0 as [Hlen _].
    constructor; [simpl; auto | now apply IH].
Qed.

Lemma update_shape (self self' : ModelEMA) (live : Model) :
  update self live = Ok self' ->
  keys (ema self') = keys (ema self)
  /\ Forall2 (fun a b => fst a = fst b /\ length (snd a) = length (snd b))
       (ema self) (ema self')
  /\ decay self' = decay self
  /\ ema_has_module self' = ema_has_module self.
Proof.
  unfold update. intros H. inv_bind H. injection H as <-. simpl.
  split; [now apply update_items_keys in Ha |].
  split; [now apply update_items_sizes in Ha |]. now split.
Qed.

(** X5. An update never changes the shape of the shadow: the names stay the
    same, in the same order, every tensor keeps its size, and the decay and
    the wrapper flag are untouched. *)
Theorem update_keeps_shape (self self' : ModelEMA) (live : Model) :
  update self live = Ok self' ->
  keys (ema self') = keys (ema self)
  /\ Forall2 (fun a b => fst a = fst b /\ length (snd a) = length (snd b))
       (ema self) (ema self')
  /\ decay self' = decay self
  /\ ema_has_module self' = ema_has_module self.
Proof. apply update_shape. Qed.

Lemma update_keeps_shape_witness :
  keys (ema (shadow_with 9)) = keys (ema (shadow_with 10)).
Proof.
  assert (H : update (shadow_with 10) live_zero = Ok (shadow_with 9)).
  { rewrite update_scenario. replace (10 * 0.9) with 9 by lra. reflexivity. }
  exact (proj1 (update_keeps_shape _ _ _ H)).
Defined.






(** X8. The update reports the first shadow name, in the order of the shadow's
    state dictionary, that the live state lacks: when the names before it
    are found with matching sizes, the exception is the [KeyError] of
    exactly that looked-up name. *)
Theorem update_first_missing_key (self : ModelEMA) (live : Model)
    (before rest : state_dict) (k : string) (e : tensor) :
  ema self = before ++ (k, e) :: rest ->
  Forall (fun ke =>
            exists v,
              getitem (model_state live)
                (live_name (has_module live && negb (ema_has_module self)) (fst ke))
              = Ok v
              /\ length (snd ke) = length v) before ->
  live_name (has_module live && negb (ema_has_module self)) k
    ∉ keys (model_state live) ->
  update self live
  = Raise (KeyError (live_name (has_module live && negb (ema_has_module self)) k)).
Proof.
  intros Hema Hbefore Hmiss. unfold update. rewrite Hema. clear Hema.
  set (nm := has_module live && negb (ema_has_module self)) in *.
  apply contains_false, getitem_contains in Hmiss.
  induction Hbefore as [| [k0 e0] before (v & Hv & Hlen) _ IH]; simpl.
  - now rewrite Hmiss.
  - simpl in Hv, Hlen. rewrite Hv. simpl.
    destruct (ema_value_total (decay self) e0 v Hlen) as [r Hr]. rewrite Hr. simpl.
    destruct (update_items nm (decay self) (model_state live)
                (before ++ (k, e) :: rest)) as [items | err]; simpl in *;
      [discriminate IH | exact IH].
Qed.

Lemma update_first_missing_key_witness :
  update {| ema := [("weight"%string, [10]); ("bias"%string, [1])];
            decay := 0.9; ema_has_module := false |}
         live_zero
  = Raise (KeyError "bias").
Proof.
  apply (update_first_missing_key
           {| ema := [("weight"%string, [10]); ("bias"%string, [1])];
              decay := 0.9; ema_has_module := false |}
           live_zero [("weight"%string, [10])] [] "bias"%string [1]).
  - reflexivity.
  - constructor; [| constructor]. exists [0]. split; reflexivity.
  - compute_done.
Defined.

(** ** Restoring the shadow *)

Lemma prefix_module_dot (k : string) : String.prefix "module" ("module." ++ k) = true.
Proof. reflexivity. Qed.

(** X9. Reconciling a name twice is the same as once, and for a wrapped shadow
    every reconciled name starts with [module]. *)
Theorem load_name_idempotent (b : bool) (k : string) :
  load_name b (load_name b k) = load_name b k
  /\ String.prefix "module" (load_name true k) = true.
Proof.
  unfold load_name. split.
  - destruct b; [| reflexivity].
    destruct (String.prefix "module" k) eqn:Hk; cbn [negb]; [now rewrite Hk |].
    now rewrite prefix_module_dot.
  - destruct (String.prefix "module" k) eqn:Hk; cbn [negb]; [exact Hk |].
    apply prefix_module_dot.
Qed.

Lemma keys_setitem_old {V : Type} (d : list (string * V)) (k : string) (v : V) :
  k ∈ keys d -> keys (setitem d k v) = keys d.
Proof.
  unfold keys. induction d as [| [k0 v0] d IH]; simpl; intros Hin.
  - now apply elem_of_nil in Hin.
  - destruct (String.eqb k0 k) eqn:Hk; simpl; [reflexivity |].
    apply elem_of_cons in Hin as [-> | Hin].
    + now rewrite String.eqb_refl in Hk.
    + now rewrite IH.
Qed.

Lemma setitem_new {V : Type} (d : list (string * V)) (k : string) (v : V) :
  k ∉ keys d -> setitem d k v = d ++ [(k, v)].
Proof.
  unfold keys. induction d as [| [k0 v0] d IH]; simpl; intros Hin; [reflexivity |].
  apply not_elem_of_cons in Hin as [Hne Hin].
  destruct (String.eqb k0 k) eqn:Hk.
  - apply String.eqb_eq in Hk. congruence.
  - now rewrite IH.
Qed.

Lemma setitem_NoDup {V : Type} (d : list (string * V)) (k : string) (v : V) :
  NoDup (keys d) -> NoDup (keys (setitem d k v)).
Proof.
  intros Hnd. destruct (decide (k ∈ keys d)) as [Hin | Hin].
  - now rewrite keys_setitem_old.
  - rewrite setitem_new by exact Hin. unfold keys in *. rewrite map_app. simpl.
    apply NoDup_app. split; [exact Hnd |]. split; [| apply NoDup_singleton].
    intros x Hx Hx'. apply list_elem_of_singleton in Hx'. now subst x.
Qed.

Lemma elem_of_keys_setitem {V : Type} (d : list (string * V)) (k0 k : string) (v : V) :
  k ∈ keys (setitem d k0 v) <-> k = k0 \/ k ∈ keys d.
Proof.
  split; [apply keys_setitem |].
  destruct (decide (k0 ∈ keys d)) as [Hin | Hin].
  - rewrite keys_setitem_old by exact Hin. now intros [-> | H].
  - rewrite setitem_new by exact Hin. unfold keys. rewrite map_app. simpl.
    intros [-> | H]; apply elem_of_app; [right; now apply list_elem_of_singleton | now left].
Qed.

Lemma fold_setitem_NoDup (b : bool) (saved acc : state_dict) :
  NoDup (keys acc) ->
  NoDup (keys (fold_left (fun d '(k, v) => setitem d (load_name b k) v) saved acc)).
Proof.
  revert acc. induction saved as [| [k v] saved IH]; intros acc Hnd; simpl;
    [exact Hnd |].
  apply IH. now apply setitem_NoDup.
Qed.

Lemma fold_setitem_keys (b : bool) (saved acc : state_dict) (k : string) :
  k ∈ keys (fold_left (fun d '(k, v) => setitem d (load_name b k) v) saved acc)
  <-> k ∈ keys acc \/ exists k', k' ∈ keys saved /\ k = load_name b k'.
Proof.
  split; [apply keys_fold_setitem |].
  revert acc. induction saved as [| [k0 v0] saved IH]; intros acc; simpl.
  - intros [H | (k' & Hk' & _)]; [exact H | now apply elem_of_nil in Hk'].
  - intros [H | (k' & Hk' & ->)]; apply IH.
    + left. apply elem_of_keys_setitem. now right.
    + apply elem_of_cons in Hk' as [-> | Hk'].
      * left. apply elem_of_keys_setitem. now left.
      * right. now exists k'.
Qed.

Lemma fold_setitem_fresh (b : bool) (saved acc : state_dict) :
  NoDup (keys acc ++ map (load_name b) (keys saved)) ->
  fold_left (fun d '(k, v) => setitem d (load_name b k) v) saved acc
  = acc ++ map (fun kv => (load_name b (fst kv), snd kv)) saved.
Proof.
  revert acc. induction saved as [| [k v] saved IH]; intros acc Hnd; simpl.
  - now rewrite app_nil_r.
  - simpl in Hnd. apply NoDup_app in Hnd as (Hacc & Hdisj & Hrest).
    rewrite setitem_new.
    + rewrite IH.
      * now rewrite <- app_assoc.
      * unfold keys in *. rewrite map_app. simpl. rewrite <- app_assoc. simpl.
        apply NoDup_app. split; [exact Hacc |]. split; [exact Hdisj | exact Hrest].
    + intros Hin. apply (Hdisj _ Hin). apply elem_of_cons. now left.
Qed.

Lemma new_state_dict_fresh (b : bool) (saved : state_dict) :
  NoDup (map (load_name b) (keys saved)) ->
  new_state_dict b saved = map (fun kv => (load_name b (fst kv), snd kv)) saved.
Proof. intros Hnd. unfold new_state_dict. now rewrite fold_setitem_fresh. Qed.

(** X10. [new_state_dict] is a dictionary whatever it is given: its names are
    distinct, and they are exactly the reconciled names of the saved
    entries.  When the reconciled names of the saved entries are distinct,
    the saved entries are kept one for one, in order, under their
    reconciled names. *)
Theorem new_state_dict_names (b : bool) (saved : state_dict) :
  NoDup (keys (new_state_dict b saved))
  /\ (forall k : string,
        k ∈ keys (new_state_dict b saved)
        <-> exists k', k' ∈ keys saved /\ k = load_name b k')
  /\ (NoDup (map (load_name b) (keys saved)) ->
      new_state_dict b saved
      = map (fun kv => (load_name b (fst kv), snd kv)) saved).
Proof.
  unfold new_state_dict. split; [| split].
  - apply fold_setitem_NoDup. constructor.
  - intros k. rewrite fold_setitem_keys. split; [| now right].
    intros [H | H]; [now apply elem_of_nil in H | exact H].
  - intros Hnd. now rewrite fold_setitem_fresh.
Qed.

Lemma new_state_dict_names_witness :
  new_state_dict true [("a"%string, [1]); ("module.b"%string, [2])]
  = [("module.a"%string, [1]); ("module.b"%string, [2])].
Proof.
  apply (proj2 (proj2 (new_state_dict_names true
                         [("a"%string, [1]); ("module.b"%string, [2])]))).
  compute_done.
Defined.

Lemma substring_whole (s : string) : String.substring 0 (String.length s) s = s.
Proof. induction s as [| c s IH]; simpl; [reflexivity | now rewrite IH]. Qed.

Lemma strip_module_dot (k : string) : strip_module ("module." ++ k) = k.
Proof.
  unfold strip_module.
  change (String.prefix "module." ("module." ++ k)) with (String.prefix "" k).
  replace (String.prefix "" k) with true by now destruct k.
  change (String.substring 7 (String.length ("module." ++ k) - 7) ("module." ++ k))
    with (String.substring 0 (String.length k - 0) k).
  rewrite Nat.sub_0_r. apply substring_whole.
Qed.

(** What the save path stores for a shadow whose names all reconcile back
    to themselves is a fixed point of the renaming of the restore. *)
Lemma saved_names_reconcile (b : bool) (d : state_dict) :
  (b = true ->
   Forall (fun k => exists k', k = ("module." ++ k')%string
                               /\ String.prefix "module" k' = false) (keys d)) ->
  map (fun kv => (load_name b (fst kv), snd kv)) (state_to_save b d) = d.
Proof.
  intros Hb. destruct b; simpl.
  - specialize (Hb eq_refl). unfold keys in Hb.
    induction d as [| [k v] d IH]; simpl in *; [reflexivity |].
    apply Forall_cons in Hb as [(k' & -> & Hk') Hb]. rewrite IH by exact Hb.
    rewrite strip_module_dot. unfold load_name. now rewrite Hk'.
  - induction d as [| [k v] d IH]; simpl; [reflexivity | now rewrite IH].
Qed.

(** X11. Save then restore: a shadow loaded from the checkpoint record that the
    epoch loop wrote for it is the shadow itself.  For a wrapped shadow this
    needs every name to be [module.] followed by a name that does not
    itself start with [module]. *)
Theorem _load_checkpoint_of_saved (epoch : Z) (l : learner) (self : ModelEMA)
    (test_acc best : R) :
  ema_model l = Some self ->
  NoDup (keys (ema self)) ->
  (ema_has_module self = true ->
   Forall (fun k => exists k', k = ("module." ++ k')%string
                               /\ String.prefix "module" k' = false)
     (keys (ema self))) ->
  _load_checkpoint self (checkpoint_record epoch l test_acc best) = Ok self.
Proof.
  intros Hema Hnd Hnames. unfold _load_checkpoint, checkpoint_record.
  simplify_map_eq. cbn [as_state_dict rbind].
  pose proof (saved_names_reconcile _ _ Hnames) as Hrec.
  assert (Hnew : new_state_dict (ema_has_module self)
                   (state_to_save (ema_has_module self) (ema self)) = ema self).
  { rewrite new_state_dict_fresh; [exact Hrec |].
    apply (f_equal keys) in Hrec. unfold keys in *.
    rewrite map_map in Hrec. simpl in Hrec. rewrite <- map_map in Hrec.
    now rewrite Hrec. }
  rewrite Hnew, load_state_dict_self by exact Hnd. simpl. now destruct self.
Qed.

Lemma _load_checkpoint_of_saved_witness :
  _load_checkpoint (shadow_with 10) (checkpoint_record 0 scenario_learner 70 70)
  = Ok (shadow_with 10).
Proof.
  apply (_load_checkpoint_of_saved 0 scenario_learner (shadow_with 10) 70 70).
  - reflexivity.
  - compute_done.
  - discriminate.
Defined.



(** ** One training step beyond the claims *)

Lemma chunk2_halves {A : Type} (a b : list A) :
  length a = length b -> chunk2 (a ++ b) = Ok (a, b).
Proof.
  intros Hlen. unfold chunk2. rewrite length_app, <- Hlen.
  destruct a as [| x a].
  - destruct b; [reflexivity | discriminate].
  - destruct b as [| y b]; [discriminate |].
    replace (length (x :: a) + length (x :: a))%nat
      with (S (S (2 * length a))) by (simpl; lia).
    replace ((S (S (2 * length a)) + 1) / 2)%nat with (length (x :: a)).
    + now rewrite take_app_length, drop_app_length.
    + simpl length. replace (S (S (2 * length a)) + 1)%nat
        with (1 + S (length a) * 2)%nat by lia.
      rewrite Nat.div_add by lia. reflexivity.
Qed.

(** X13. Splitting undoes the concatenation of line 372: when the forward pass
    returns the rows of the labeled batch, then those of the weak views,
    then those of the strong views, the three segments are recovered
    exactly; a remainder of a single row cannot be unpacked. *)
Theorem split_logits_of_concat {A : Type} (logits_x logits_u_w logits_u_s : list A)
    (row : A) :
  (length logits_u_w = length logits_u_s ->
   split_logits (length logits_x) (logits_x ++ logits_u_w ++ logits_u_s)
   = Ok (logits_x, logits_u_w, logits_u_s))
  /\ split_logits (length logits_x) (logits_x ++ [row])
     = Raise (ValueError "not enough values to unpack (expected 2, got 1)").
Proof.
  unfold split_logits. rewrite !take_app_length, !drop_app_length. split.
  - intros Hlen. now rewrite chunk2_halves.
  - reflexivity.
Qed.

Lemma split_logits_of_concat_witness :
  split_logits 1 ([10] ++ [20; 30] ++ [40; 50])%nat = Ok ([10], [20; 30], [40; 50])%nat.
Proof.
  exact (proj1 (split_logits_of_concat [10]%nat [20; 30]%nat [40; 50]%nat 0%nat)
           eq_refl).
Defined.

Lemma sum_R_nonneg (l : list R) : Forall (fun x => 0 <= x) l -> 0 <= sum_R l.
Proof. induction 1 as [| x l Hx _ IH]; simpl; lra. Qed.

Lemma mean_nonneg (l : list R) : Forall (fun x => 0 <= x) l -> 0 <= mean l.
Proof.
  intros H. unfold mean, Rdiv. apply Rmult_le_pos; [now apply sum_R_nonneg |].
  destruct l as [| x l]; [simpl; rewrite Rinv_0; lra |].
  left. apply Rinv_0_lt_compat, lt_0_INR. simpl. lia.
Qed.

Lemma mean_le_1 (l : list R) : Forall (fun x => 0 <= x <= 1) l -> 0 <= mean l <= 1.
Proof.
  intros H. split; [apply mean_nonneg; eapply Forall_impl; [exact H | simpl; intros; lra] |].
  unfold mean. destruct l as [| x l].
  - unfold Rdiv. simpl. rewrite Rinv_0. lra.
  - assert (Hpos : 0 < INR (length (x :: l))) by (apply lt_0_INR; simpl; lia).
    apply (Rmult_le_reg_r (INR (length (x :: l)))); [exact Hpos |].
    unfold Rdiv. rewrite Rmult_assoc, Rinv_l, Rmult_1_r, Rmult_1_l by lra.
    clear Hpos. induction H as [| y l' Hy _ IH]; [simpl; lra |].
    change (length (y :: l')) with (S (length l')). rewrite S_INR. simpl. lra.
Qed.

Lemma exp_le_sum (row : list R) (t : nat) (x : R) :
  row !! t = Some x -> 0 < exp x <= sum_R (map exp row).
Proof.
  revert t. induction row as [| y row IH]; intros [| t] H; simpl in *;
    try discriminate.
  - injection H as ->. pose proof (exp_pos x).
    assert (0 <= sum_R (map exp row)).
    { apply sum_R_nonneg, Forall_forall. intros z Hz.
      apply list_elem_of_In, in_map_iff in Hz as (u & <- & _). left. apply exp_pos. }
    lra.
  - destruct (IH _ H). pose proof (exp_pos y). lra.
Qed.

Lemma softmax_lookup (row : list R) (t : nat) (p : R) :
  softmax row !! t = Some p ->
  exists x, row !! t = Some x /\ p = exp x / sum_R (map exp row) /\ 0 < p <= 1.
Proof.
  unfold softmax. rewrite lookup_map. intros H.
  destruct (row !! t) as [x |] eqn:Hx; [| discriminate]. injection H as <-.
  exists x. split; [reflexivity |]. split; [reflexivity |].
  destruct (exp_le_sum _ _ _ Hx) as [Hpos Hle].
  set (z := sum_R (map exp row)) in *. assert (Hz : 0 < z) by lra. split.
  - apply Rdiv_lt_0_compat; assumption.
  - apply (Rmult_le_reg_r z); [exact Hz |].
    unfold Rdiv. rewrite Rmult_assoc, Rinv_l by lra. lra.
Qed.

Lemma neg_ln_nonneg (p : R) : 0 < p <= 1 -> 0 <= - ln p.
Proof.
  intros [Hpos [Hlt | ->]]; [| rewrite ln_1; lra].
  pose proof (ln_increasing p 1 Hpos Hlt) as H. rewrite ln_1 in H. lra.
Qed.

Lemma cross_entropy_rows_nonneg (logits : list (list R)) (targets : list nat)
    (cs : list R) :
  cross_entropy_rows logits targets = Ok cs -> Forall (fun c => 0 <= c) cs.
Proof.
  revert targets cs.
  induction logits as [| row logits IH]; intros [| t targets] cs H; simpl in H;
    try discriminate.
  - injection H as <-. constructor.
  - do 2 inv_bind H. injection H as <-. constructor; [| now apply (IH targets)].
    unfold cross_entropy_row in Ha.
    destruct (softmax row !! t) as [p |] eqn:Hp; [| discriminate].
    injection Ha as <-. apply softmax_lookup in Hp as (x & _ & _ & Hp).
    now apply neg_ln_nonneg.
Qed.

Lemma tensor_mul_nonneg (a b : list R) :
  Forall (fun x => 0 <= x) a -> Forall (fun x => 0 <= x) b ->
  Forall (fun x => 0 <= x) (tensor_mul a b).
Proof.
  unfold tensor_mul. intros Ha. revert b.
  induction Ha as [| x a Hx _ IH]; intros b Hb; simpl; [constructor |].
  destruct Hb as [| y b Hy Hb]; constructor; [now apply Rmult_le_pos | now apply IH].
Qed.

Lemma ge_float_range (p threshold : R) : 0 <= ge_float p threshold <= 1.
Proof. unfold ge_float. destruct (Rge_dec p threshold); lra. Qed.

(** X14. No loss of a step is negative: [Lx] and [Lu] are at least 0, and so is
    the total loss when [lambda_u] is. *)
Theorem step_losses_nonneg (threshold lambda_u : R) (logits_x : list (list R))
    (targets_x : list nat) (logits_u_w logits_u_s : list (list R)) (r : step_losses) :
  train_losses threshold lambda_u logits_x targets_x logits_u_w logits_u_s = Ok r ->
  0 <= Lx r /\ 0 <= Lu r /\ (0 <= lambda_u -> 0 <= loss r).
Proof.
  intros H. apply train_losses_inv in H
    as (cx & mx & ce & Hcx & Hmx & Hce & HLx & Hmp & Htu & Hmask & HLu & Hloss).
  assert (H1 : 0 <= Lx r).
  { rewrite HLx. apply mean_nonneg. now apply cross_entropy_rows_nonneg in Hcx. }
  assert (H2 : 0 <= Lu r).
  { rewrite HLu. apply mean_nonneg, tensor_mul_nonneg.
    - now apply cross_entropy_rows_nonneg in Hce.
    - rewrite Hmask. apply Forall_forall. intros m Hm.
      apply list_elem_of_In, in_map_iff in Hm as (p & <- & _). apply ge_float_range. }
  split; [exact H1 |]. split; [exact H2 |]. intros Hl. rewrite Hloss.
  pose proof (Rmult_le_pos _ _ Hl H2). lra.
Qed.

Lemma step_losses_nonneg_witness :
  exists r : step_losses,
    train_losses 0.95 1 [[1; 2]] [1%nat] [[3; 0]; [0; 0]] [[0; 1]; [1; 0]] = Ok r
    /\ 0 <= loss r.
Proof.
  destruct (train_losses_total 2 0.95 1 [[1; 2]] [1%nat] [[3; 0]; [0; 0]]
              [[0; 1]; [1; 0]]) as [r Hr];
    [lia | reflexivity | reflexivity | repeat constructor ..].
  exists r. split; [exact Hr |].
  apply (step_losses_nonneg _ _ _ _ _ _ _ Hr). lra.
Defined.

Lemma tensor_mul_zeros (ce msk : list R) :
  Forall (fun m => m = 0) msk -> Forall (fun x => x = 0) (tensor_mul ce msk).
Proof.
  unfold tensor_mul. intros Hm. revert ce.
  induction Hm as [| m msk -> _ IH]; intros [| c ce]; simpl; constructor;
    [lra | apply IH].
Qed.

Lemma mean_zeros (l : list R) : Forall (fun x => x = 0) l -> mean l = 0.
Proof.
  intros H. unfold mean, Rdiv. replace (sum_R l) with 0; [lra |].
  induction H as [| x l -> _ IH]; simpl; lra.
Qed.

Lemma max_probs_range (threshold lambda_u : R) (logits_x : list (list R))
    (targets_x : list nat) (logits_u_w logits_u_s : list (list R)) (r : step_losses) :
  train_losses threshold lambda_u logits_x targets_x logits_u_w logits_u_s = Ok r ->
  Forall (fun conf => 0 < conf <= 1) (max_probs r).
Proof.
  intros H. apply train_losses_inv in H
    as (cx & mx & ce & _ & Hmx & _ & _ & Hmp & _).
  rewrite Hmp. clear Hmp. revert mx Hmx.
  induction logits_u_w as [| row rows IH]; intros mx Hmx; simpl in Hmx.
  - injection Hmx as <-. constructor.
  - do 2 inv_bind Hmx. injection Hmx as <-. simpl. constructor; [| now apply IH].
    destruct a as [conf j]. apply torch_max_spec in Ha as (Hj & _).
    now apply softmax_lookup in Hj as (x & _ & _ & Hr).
Qed.

(** X15. When no weak view reaches the threshold the unlabeled term vanishes:
    the mask is all zero, [Lu] is 0 and the loss is [Lx].  A threshold above
    1 always has this effect, since a confidence is at most 1. *)
Theorem no_confident_example (threshold lambda_u : R) (logits_x : list (list R))
    (targets_x : list nat) (logits_u_w logits_u_s : list (list R)) (r : step_losses) :
  train_losses threshold lambda_u logits_x targets_x logits_u_w logits_u_s = Ok r ->
  (Forall (fun conf => conf < threshold) (max_probs r) ->
   Forall (fun m => m = 0) (mask r) /\ Lu r = 0 /\ loss r = Lx r)
  /\ (1 < threshold -> Forall (fun m => m = 0) (mask r) /\ Lu r = 0 /\ loss r = Lx r).
Proof.
  intros H. pose proof (max_probs_range _ _ _ _ _ _ _ H) as Hrange.
  apply train_losses_inv in H
    as (cx & mx & ce & _ & _ & _ & _ & Hmp & _ & Hmask & HLu & Hloss).
  assert (Hmain : Forall (fun conf => conf < threshold) (max_probs r) ->
                  Forall (fun m => m = 0) (mask r) /\ Lu r = 0 /\ loss r = Lx r).
  { intros Hlow.
    assert (Hz : Forall (fun m => m = 0) (mask r)).
    { rewrite Hmask, <- Hmp. clear -Hlow.
      induction Hlow as [| conf l Hc _ IH]; simpl; constructor; [| exact IH].
      unfold ge_float. destruct (Rge_dec conf threshold); lra. }
    assert (HLu0 : Lu r = 0) by (rewrite HLu; now apply mean_zeros, tensor_mul_zeros).
    split; [exact Hz |]. split; [exact HLu0 |]. rewrite Hloss, HLu0. lra. }
  split; [exact Hmain |]. intros Hth. apply Hmain.
  eapply Forall_impl; [exact Hrange |]. simpl. intros conf Hc. lra.
Qed.

Lemma no_confident_example_witness :
  exists r : step_losses,
    train_losses 1.5 1 [[1; 2]] [1%nat] [[3; 0]; [0; 0]] [[0; 1]; [1; 0]] = Ok r
    /\ Lu r = 0 /\ loss r = Lx r.
Proof.
  destruct (train_losses_total 2 1.5 1 [[1; 2]] [1%nat] [[3; 0]; [0; 0]]
              [[0; 1]; [1; 0]]) as [r Hr];
    [lia | reflexivity | reflexivity | repeat constructor ..].
  exists r. split; [exact Hr |].
  destruct (proj2 (no_confident_example _ _ _ _ _ _ _ Hr)) as (_ & H1 & H2);
    [lra | now split].
Defined.

Lemma mask_prob_unit (threshold lambda_u : R) (logits_x : list (list R))
    (targets_x : list nat) (logits_u_w logits_u_s : list (list R)) (r : step_losses) :
  train_losses threshold lambda_u logits_x targets_x logits_u_w logits_u_s = Ok r ->
  0 <= mask_prob r <= 1.
Proof.
  intros H. apply train_losses_inv in H
    as (cx & mx & ce & _ & _ & _ & _ & _ & _ & Hmask & _).
  unfold mask_prob. apply mean_le_1. rewrite Hmask. apply Forall_forall.
  intros m Hm. apply list_elem_of_In, in_map_iff in Hm as (p & <- & _).
  apply ge_float_range.
Qed.

(** X16. The confidences lie in (0, 1] and the reported mask rate,
    [mask.mean()], lies in [0, 1]. *)
Theorem mask_rate_range (threshold lambda_u : R) (logits_x : list (list R))
    (targets_x : list nat) (logits_u_w logits_u_s : list (list R)) (r : step_losses) :
  train_losses threshold lambda_u logits_x targets_x logits_u_w logits_u_s = Ok r ->
  Forall (fun conf => 0 < conf <= 1) (max_probs r)
  /\ 0 <= mask_prob r <= 1.
Proof.
  intros H. split; [now apply max_probs_range in H | now apply mask_prob_unit in H].
Qed.

Lemma mask_rate_range_witness :
  exists r : step_losses,
    train_losses 0.95 1 [[1; 2]] [1%nat] [[3; 0]; [0; 0]] [[0; 1]; [1; 0]] = Ok r
    /\ 0 <= mask_prob r <= 1.
Proof.
  destruct (train_losses_total 2 0.95 1 [[1; 2]] [1%nat] [[3; 0]; [0; 0]]
              [[0; 1]; [1; 0]]) as [r Hr];
    [lia | reflexivity | reflexivity | repeat constructor ..].
  exists r. split; [exact Hr |]. exact (proj2 (mask_rate_range _ _ _ _ _ _ _ Hr)).
Defined.

Lemma softmax_order (row : list R) (i j : nat) (p q x y : R) :
  softmax row !! i = Some p -> softmax row !! j = Some q ->
  row !! i = Some x -> row !! j = Some y ->
  (p <= q -> x <= y) /\ (p < q -> x < y).
Proof.
  intros Hp Hq Hx Hy.
  apply softmax_lookup in Hp as (x' & Hx' & -> & _).
  apply softmax_lookup in Hq as (y' & Hy' & -> & _).
  rewrite Hx in Hx'. injection Hx' as <-. rewrite Hy in Hy'. injection Hy' as <-.
  destruct (exp_le_sum _ _ _ Hx) as [Hpos Hle].
  set (z := sum_R (map exp row)) in *. assert (Hz : 0 < z) by lra.
  assert (Hiz : 0 < / z) by now apply Rinv_0_lt_compat.
  unfold Rdiv. split; intros Hpq.
  - apply Rmult_le_reg_r in Hpq; [| exact Hiz].
    destruct (Rle_or_lt x y) as [Hle' | Hlt]; [exact Hle' |].
    apply exp_increasing in Hlt. lra.
  - apply Rmult_lt_reg_r in Hpq; [| exact Hiz]. now apply exp_lt_inv.
Qed.

Lemma pseudo_label_lookup (threshold lambda_u : R)
    (logits_x : list (list R)) (targets_x : list nat)
    (logits_u_w logits_u_s : list (list R)) (r : step_losses)
    (i : nat) (row : list R) :
  train_losses threshold lambda_u logits_x targets_x logits_u_w logits_u_s = Ok r ->
  logits_u_w !! i = Some row ->
  exists (conf : R) (label : nat),
    targets_u r !! i = Some label
    /\ max_probs r !! i = Some conf
    /\ softmax row !! label = Some conf
    /\ (forall j p, softmax row !! j = Some p -> p <= conf)
    /\ (forall j p, (j < label)%nat -> softmax row !! j = Some p -> p < conf).
Proof.
  intros H Hrow. apply train_losses_inv in H
    as (cx & mx & ce & _ & Hmx & _ & _ & Hmp & Htu & _).
  destruct (rmap_lookup _ _ _ Hmx) as [_ Hnth].
  destruct (Hnth i (softmax row)) as ([conf label] & Hmax & Hi).
  { now rewrite lookup_map, Hrow. }
  apply torch_max_spec in Hmax as (Hconf & Hle & Hfirst).
  exists conf, label. rewrite Htu, Hmp, !lookup_map, Hi. now repeat split.
Qed.

(** X17. The pseudo-label is the first index of the largest weak-view logit
    itself: the softmax does not change which class is picked. *)
Theorem pseudo_label_is_argmax_of_logits (threshold lambda_u : R)
    (logits_x : list (list R)) (targets_x : list nat)
    (logits_u_w logits_u_s : list (list R)) (r : step_losses)
    (i : nat) (row : list R) :
  train_losses threshold lambda_u logits_x targets_x logits_u_w logits_u_s = Ok r ->
  logits_u_w !! i = Some row ->
  exists (label : nat) (x : R),
    targets_u r !! i = Some label
    /\ row !! label = Some x
    /\ (forall j y, row !! j = Some y -> y <= x)
    /\ (forall j y, (j < label)%nat -> row !! j = Some y -> y < x).
Proof.
  intros H Hrow.
  destruct (pseudo_label_lookup _ _ _ _ _ _ _ _ _ H Hrow)
    as (conf & label & Hl & _ & Hc & Hmaxi & Hfirst).
  destruct (softmax_lookup _ _ _ Hc) as (x & Hx & _).
  exists label, x. split; [exact Hl |]. split; [exact Hx |]. split.
  - intros j y Hy.
    assert (Hq : exists q, softmax row !! j = Some q).
    { unfold softmax. rewrite lookup_map, Hy. now eexists. }
    destruct Hq as [q Hq].
    exact (proj1 (softmax_order row j label q conf y x Hq Hc Hy Hx) (Hmaxi j q Hq)).
  - intros j y Hj Hy.
    assert (Hq : exists q, softmax row !! j = Some q).
    { unfold softmax. rewrite lookup_map, Hy. now eexists. }
    destruct Hq as [q Hq].
    exact (proj2 (softmax_order row j label q conf y x Hq Hc Hy Hx) (Hfirst j q Hj Hq)).
Qed.

Lemma pseudo_label_is_argmax_of_logits_witness :
  exists r : step_losses,
    train_losses 0.95 1 [[1; 2]] [1%nat] [[3; 0]; [0; 0]] [[0; 1]; [1; 0]] = Ok r
    /\ exists (label : nat) (x : R),
         targets_u r !! 0%nat = Some label
         /\ [3; 0] !! label = Some x
         /\ (forall j y, [3; 0] !! j = Some y -> y <= x)
         /\ (forall j y, (j < label)%nat -> [3; 0] !! j = Some y -> y < x).
Proof.
  destruct (train_losses_total 2 0.95 1 [[1; 2]] [1%nat] [[3; 0]; [0; 0]]
              [[0; 1]; [1; 0]]) as [r Hr];
    [lia | reflexivity | reflexivity | repeat constructor ..].
  exists r. split; [exact Hr |].
  exact (pseudo_label_is_argmax_of_logits _ _ _ _ _ _ r 0%nat [3; 0] Hr eq_refl).
Defined.

(** ** The parameter groups beyond the claims *)

Lemma prefix_app (a b : string) :
  String.prefix a b = true <-> exists post, b = (a ++ post)%string.
Proof.
  revert b. induction a as [| c a IH]; intros b; simpl.
  - split; [intros _; now exists b | now destruct b].
  - destruct b as [| c' b].
    + split; [discriminate | intros [post H]; discriminate].
    + simpl. destruct (Ascii.ascii_dec c c') as [-> | Hne].
      * rewrite IH. split; intros [post H]; exists post;
          [simpl; now rewrite H | simpl in H; now injection H].
      * split; [discriminate | intros [post H]].
        change (String c' b = String c (a +:+ post)) in H. congruence.
Qed.

(** [str_in] is the substring test of Python's [in]. *)
Lemma str_in_substring (nd n : string) :
  str_in nd n = true <-> exists pre post, n = (pre ++ nd ++ post)%string.
Proof.
  induction n as [| c n IH]; cbn [str_in].
  - rewrite orb_false_r, prefix_app. split.
    + intros [post H]. now exists ""%string, post.
    + intros (pre & post & H). destruct pre as [| c' pre]; [now exists post |].
      change (""%string = String c' (pre +:+ nd +:+ post)) in H. discriminate.
  - rewrite orb_true_iff, IH, prefix_app. split.
    + intros [[post H] | (pre & post & H)].
      * now exists ""%string, post.
      * exists (String c pre), post.
        change (String c n = String c (pre +:+ nd +:+ post)). now rewrite H.
    + intros (pre & post & H). destruct pre as [| c' pre].
      * left. now exists post.
      * right. change (String c n = String c' (pre +:+ nd +:+ post)) in H.
        injection H as _ H. now exists pre, post.
Qed.

(** X18. A named parameter is in the group without weight decay exactly when
    its name contains ["bias"] or ["bn"] somewhere, and in the decayed group
    exactly when it contains neither. *)
Theorem zero_decay_iff_name_contains {P : Type} (named_parameters : list (string * P))
    (np : string * P) :
  (np ∈ not_decayed named_parameters
   <-> np ∈ named_parameters
       /\ ((exists pre post, fst np = (pre ++ "bias" ++ post)%string)
           \/ (exists pre post, fst np = (pre ++ "bn" ++ post)%string)))
  /\ (np ∈ decayed named_parameters
      <-> np ∈ named_parameters
          /\ ~ ((exists pre post, fst np = (pre ++ "bias" ++ post)%string)
                \/ (exists pre post, fst np = (pre ++ "bn" ++ post)%string))).
Proof.
  assert (Hany : any_no_decay (fst np) = true
                 <-> (exists pre post, fst np = (pre ++ "bias" ++ post)%string)
                     \/ (exists pre post, fst np = (pre ++ "bn" ++ post)%string)).
  { unfold any_no_decay, no_decay. cbn [existsb].
    rewrite orb_false_r, orb_true_iff, !str_in_substring. reflexivity. }
  rewrite elem_of_not_decayed, elem_of_decayed, <- Hany. split.
  - tauto.
  - destruct (any_no_decay (fst np)); intuition congruence.
Qed.

(** ** The epoch loop beyond the claims *)

Section EpochLoopMore.
Context {Bx Bu : Type}.
Variable body : learner -> nat -> Bx -> Bu -> result learner.
Variable test : Model + ModelEMA -> Z -> R.
Variables (labeled_trainloader : list Bx) (unlabeled_trainloader : list Bu).

Local Abbreviation epoch_body' :=
  (epoch_body body test labeled_trainloader unlabeled_trainloader).
Local Abbreviation epochs_from' :=
  (epochs_from body test labeled_trainloader unlabeled_trainloader).
Local Abbreviation epoch_loop' :=
  (epoch_loop body test labeled_trainloader unlabeled_trainloader).



End EpochLoopMore.







(** ** The loop of [train] and its return *)

Section TrainPassFacts.
Context {X Meter : Type}.
Variables (threshold lambda_u : R).
Variable forward : Model -> list X -> result (list (list R)).
Variable backward_step :
  Model -> optimizer_state -> scheduler_state -> list X -> list nat ->
  result (Model * optimizer_state).
Variable meter_new : Meter.
Variable meter_update : Meter -> R -> Meter.
Variable meter_avg : Meter -> R.

Local Abbreviation iteration' := (train_iteration threshold lambda_u forward backward_step).
Local Abbreviation body' := (train_body threshold lambda_u forward backward_step).
Local Abbreviation pass' :=
  (train_pass threshold lambda_u forward backward_step meter_update).

Lemma train_iteration_inv (l l' : learner) (r : step_losses)
    (data_x : list X * list nat) (data_u : (list X * list X) * list nat) :
  iteration' l data_x data_u = Ok (l', r) ->
  scheduler l' = scheduler_step (scheduler l)
  /\ 0 <= mask_prob r <= 1
  /\ match ema_model l with
     | Some shadow =>
         exists shadow', update shadow (model l') = Ok shadow'
                         /\ ema_model l' = Some shadow'
     | None => ema_model l' = None
     end.
Proof.
  destruct data_x as [inputs_x targets_x]. destruct data_u as [[inputs_u_w inputs_u_s] t].
  unfold train_iteration. intros H. do 2 inv_bind H. destruct a0 as [[lx uw] us].
  do 3 inv_bind H. injection H as <- <-. simpl.
  split; [reflexivity |]. split; [now apply mask_prob_unit in Ha1 |].
  destruct (ema_model l) as [shadow |]; simpl in Ha3.
  - inv_bind Ha3. injection Ha3 as <-. eexists. split; [eassumption | reflexivity].
  - now injection Ha3 as <-.
Qed.

Lemma train_loop_body_steps (batches : list (nat * ((list X * list nat)
                                                    * ((list X * list X) * list nat))))
    (l l' : learner) :
  train_loop body' batches l = Ok l' ->
  last_epoch (scheduler l') = (last_epoch (scheduler l) + Z.of_nat (length batches))%Z.
Proof.
  revert l. induction batches as [| [i [dx du]] batches IH]; intros l H; simpl in H.
  - injection H as <-. simpl. lia.
  - inv_bind H. unfold train_body in Ha. inv_bind Ha. injection Ha as <-.
    destruct a0 as [l1 r]. apply train_iteration_inv in Ha0 as (Hs & _).
    rewrite (IH _ H). simpl fst. rewrite Hs. simpl. lia.
Qed.

Lemma train_loop_pass_body (batches : list (nat * ((list X * list nat)
                                                   * ((list X * list X) * list nat))))
    (st st' : train_locals) :
  train_loop pass' batches st = Ok st' ->
  train_loop body' batches (trained st) = Ok (trained st')
  /\ ((batches = [] /\ st' = st)
      \/ (batches <> [] /\ exists mp, last_mask_prob st' = Some mp /\ 0 <= mp <= 1)).
Proof.
  revert st. induction batches as [| [i [dx du]] batches IH]; intros st H; simpl in H.
  - injection H as <-. split; [reflexivity | now left].
  - inv_bind H. unfold train_pass in Ha. inv_bind Ha. injection Ha as <-.
    destruct a0 as [l1 r]. destruct (IH _ H) as [Hbody Hmp]. split.
    + simpl. unfold train_body at 1. rewrite Ha0. exact Hbody.
    + right. split; [discriminate |].
      destruct Hmp as [[-> ->] | (_ & mp & Hmp & Hr)]; [| now exists mp].
      simpl. eexists. split; [reflexivity |].
      now apply train_iteration_inv in Ha0 as (_ & Hr & _).
Qed.
End TrainPassFacts.

(** X21. [train] cannot return when a loader is empty: the loop body never runs,
    [mask_prob] is never bound, and the [return] of line 425 raises
    [UnboundLocalError]. *)
Theorem train_full_empty_loader {X Meter : Type} (threshold lambda_u : R)
    (forward : Model -> list X -> result (list (list R)))
    (backward_step : Model -> optimizer_state -> scheduler_state -> list X ->
                     list nat -> result (Model * optimizer_state))
    (meter_new : Meter) (meter_update : Meter -> R -> Meter) (meter_avg : Meter -> R)
    (labeled_trainloader : list (list X * list nat))
    (unlabeled_trainloader : list ((list X * list X) * list nat)) (l : learner) :
  labeled_trainloader = [] \/ unlabeled_trainloader = [] ->
  train_full threshold lambda_u forward backward_step meter_new meter_update meter_avg
    labeled_trainloader unlabeled_trainloader l
  = inl (UnboundLocalError "mask_prob").
Proof.
  intros [-> | ->]; [reflexivity |]. unfold train_full, train, train_loader.
  now destruct labeled_trainloader.
Qed.

(** X22. When [train] returns, both loaders were non-empty, the objects are
    those the loop of passes leaves, the scheduler has advanced by one step
    per pair of batches, and the mask rate returned lies in [0, 1]. *)
Theorem train_full_returns {X Meter : Type} (threshold lambda_u : R)
    (forward : Model -> list X -> result (list (list R)))
    (backward_step : Model -> optimizer_state -> scheduler_state -> list X ->
                     list nat -> result (Model * optimizer_state))
    (meter_new : Meter) (meter_update : Meter -> R -> Meter) (meter_avg : Meter -> R)
    (labeled_trainloader : list (list X * list nat))
    (unlabeled_trainloader : list ((list X * list X) * list nat))
    (l l' : learner) (avg avg_x avg_u mp : R) :
  train_full threshold lambda_u forward backward_step meter_new meter_update meter_avg
    labeled_trainloader unlabeled_trainloader l
  = inr (l', (avg, avg_x, avg_u, mp)) ->
  labeled_trainloader <> [] /\ unlabeled_trainloader <> []
  /\ train (train_body threshold lambda_u forward backward_step)
       labeled_trainloader unlabeled_trainloader l = Ok l'
  /\ last_epoch (scheduler l')
     = (last_epoch (scheduler l)
        + Z.of_nat (Nat.min (length labeled_trainloader)
                      (length unlabeled_trainloader)))%Z
  /\ 0 <= mp <= 1.
Proof.
  unfold train_full, train. intros H.
  destruct (train_loop _ _ _) as [st |] eqn:Hloop; [| discriminate].
  destruct (last_mask_prob st) as [mp' |] eqn:Hmp; [| discriminate].
  injection H as <- _ _ _ <-.
  apply train_loop_pass_body in Hloop as [Hbody Hcases]. simpl in Hbody.
  destruct Hcases as [[_ ->] | (Hne & mp'' & Hmp' & Hr)]; [discriminate |].
  assert (Hlen : length (enumerate (train_loader labeled_trainloader
                                      unlabeled_trainloader))
                 = Nat.min (length labeled_trainloader) (length unlabeled_trainloader)).
  { unfold enumerate, train_loader. now rewrite length_imap, length_zip. }
  split; [| split; [| split; [exact Hbody | split]]].
  - intros ->. now apply Hne.
  - intros ->. apply Hne. unfold train_loader. now destruct labeled_trainloader.
  - apply train_loop_body_steps in Hbody. now rewrite Hbody, Hlen.
  - congruence.
Qed.

Lemma toy_iteration (threshold lambda_u x : R) (l : learner) :
  model l = live_zero -> ema_model l = Some (shadow_with x) ->
  exists r : step_losses,
    train_iteration threshold lambda_u toy_forward toy_backward_step l
      ([tt], [1%nat]) (([tt], [tt]), [0%nat])
    = Ok ({| model := live_zero; ema_model := Some (shadow_with (x * 0.9));
             optimizer := optimizer l; scheduler := scheduler_step (scheduler l) |}, r).
Proof.
  intros Hm He.
  destruct (train_losses_total 2 threshold lambda_u [[0; 1]] [1%nat] [[0; 1]] [[0; 1]])
    as [r Hr]; [lia | reflexivity | reflexivity | repeat constructor ..].
  exists r. unfold train_iteration, toy_forward, toy_backward_step. rewrite Hm, He.
  cbn [app map rbind length].
  change (split_logits 1 [[0; 1]; [0; 1]; [0; 1]])
    with (Ok ([[0; 1]], [[0; 1]], [[0; 1]])).
  cbn [rbind]. rewrite Hr. cbn [rbind fst snd].
  now rewrite update_scenario.
Qed.

Lemma train_full_empty_loader_witness :
  train_full 0.95 1 toy_forward toy_backward_step [] (fun m v => m ++ [v]) mean
    [] toy_unlabeled scenario_learner
  = inl (UnboundLocalError "mask_prob").
Proof.
  apply (train_full_empty_loader 0.95 1 toy_forward toy_backward_step []
           (fun m v => m ++ [v]) mean [] toy_unlabeled scenario_learner).
  now left.
Defined.

Lemma train_full_returns_witness :
  exists (l' : learner) (avg avg_x avg_u mp : R),
    train_full 0.95 1 toy_forward toy_backward_step [] (fun m v => m ++ [v]) mean
      toy_labeled toy_unlabeled scenario_learner
    = inr (l', (avg, avg_x, avg_u, mp))
    /\ last_epoch (scheduler l') = 1%Z
    /\ 0 <= mp <= 1.
Proof.
  destruct (toy_iteration 0.95 1 10 scenario_learner eq_refl eq_refl) as [r Hr].
  assert (H : train_full 0.95 1 toy_forward toy_backward_step [] (fun m v => m ++ [v])
                mean toy_labeled toy_unlabeled scenario_learner
              = inr ({| model := live_zero; ema_model := Some (shadow_with (10 * 0.9));
                        optimizer := optimizer scenario_learner;
                        scheduler := scheduler_step (scheduler scenario_learner) |},
                     (mean [loss r], mean [Lx r], mean [Lu r], mask_prob r))).
  { unfold train_full, train, toy_labeled, toy_unlabeled, train_loader, enumerate.
    cbn [zip zip_with imap train_loop]. unfold train_pass at 1. cbn [trained].
    rewrite Hr. reflexivity. }
  do 5 eexists. split; [exact H |].
  destruct (train_full_returns _ _ _ _ _ _ _ _ _ _ _ _ _ _ _ H) as (_ & _ & _ & Hs & Hm).
  split; [exact Hs | exact Hm].
Defined.



Lemma epoch_body_objects {Bx Bu : Type}
    (body : learner -> nat -> Bx -> Bu -> result learner)
    (test : Model + ModelEMA -> Z -> R)
    (labeled_trainloader : list Bx) (unlabeled_trainloader : list Bu)
    (st st' : main_state) (epoch : Z) :
  epoch_body body test labeled_trainloader unlabeled_trainloader st epoch = Ok st' ->
  train body labeled_trainloader unlabeled_trainloader (objects st) = Ok (objects st').
Proof. unfold epoch_body. intros H. inv_bind H. now injection H as <-. Qed.

Lemma epochs_from_steps {X : Type} (threshold lambda_u : R)
    (forward : Model -> list X -> result (list (list R)))
    (backward_step : Model -> optimizer_state -> scheduler_state -> list X ->
                     list nat -> result (Model * optimizer_state))
    (test : Model + ModelEMA -> Z -> R)
    (labeled_trainloader : list (list X * list nat))
    (unlabeled_trainloader : list ((list X * list X) * list nat))
    (st st' : main_state) (epochs : list Z) :
  epochs_from (train_body threshold lambda_u forward backward_step) test
    labeled_trainloader unlabeled_trainloader st epochs = Ok st' ->
  last_epoch (scheduler (objects st'))
  = (last_epoch (scheduler (objects st))
     + Z.of_nat (length epochs)
       * Z.of_nat (Nat.min (length labeled_trainloader)
                     (length unlabeled_trainloader)))%Z.
Proof.
  revert st. induction epochs as [| e epochs IH]; intros st H; simpl in H.
  - injection H as <-. simpl. lia.
  - inv_bind H. apply epoch_body_objects in Ha. unfold train in Ha.
    apply train_loop_body_steps in Ha. rewrite (IH _ H), Ha.
    unfold enumerate, train_loader. rewrite length_imap, length_zip.
    change (length (e :: epochs)) with (S (length epochs)). lia.
Qed.

(** X24. The scheduler takes one step per pass of every epoch.  A run from
    epoch 0 whose loaders pair up [iteration] batches, started with the
    scheduler at step 0, ends with the scheduler at
    [total_steps = epochs * iteration], the value the schedule was built
    for; a resumed run ends [start_epoch * iteration] steps short of what
    its scheduler started with plus [total_steps]. *)
Theorem scheduler_steps_of_run {X : Type} (threshold lambda_u : R)
    (forward : Model -> list X -> result (list (list R)))
    (backward_step : Model -> optimizer_state -> scheduler_state -> list X ->
                     list nat -> result (Model * optimizer_state))
    (test : Model + ModelEMA -> Z -> R)
    (labeled_trainloader : list (list X * list nat))
    (unlabeled_trainloader : list ((list X * list X) * list nat))
    (st st' : main_state) (start_epoch epochs iteration : Z) :
  (0 <= start_epoch <= epochs)%Z ->
  Z.of_nat (Nat.min (length labeled_trainloader) (length unlabeled_trainloader))
  = iteration ->
  epoch_loop (train_body threshold lambda_u forward backward_step) test
    labeled_trainloader unlabeled_trainloader st start_epoch epochs = Ok st' ->
  last_epoch (scheduler (objects st'))
  = (last_epoch (scheduler (objects st))
     + total_steps epochs iteration - start_epoch * iteration)%Z
  /\ (start_epoch = 0%Z -> last_epoch (scheduler (objects st)) = 0%Z ->
      last_epoch (scheduler (objects st')) = total_steps epochs iteration).
Proof.
  intros Hrange Hit H. unfold epoch_loop in H. apply epochs_from_steps in H.
  rewrite length_seqZ, Hit in H. unfold total_steps.
  assert (Hmain : last_epoch (scheduler (objects st'))
                  = (last_epoch (scheduler (objects st))
                     + epochs * iteration - start_epoch * iteration)%Z)
    by (rewrite H; nia).
  split; [exact Hmain |]. intros -> H0. rewrite Hmain, H0. lia.
Qed.

Lemma scheduler_steps_of_run_witness :
  exists st' : main_state,
    epoch_loop (train_body 0.95 1 toy_forward toy_backward_step) scenario_test
      toy_labeled toy_unlabeled scenario_start 0 1 = Ok st'
    /\ last_epoch (scheduler (objects st')) = total_steps 1 1.
Proof.
  destruct (toy_iteration 0.95 1 10 scenario_learner eq_refl eq_refl) as [r Hr].
  assert (H : exists st', epoch_loop (train_body 0.95 1 toy_forward toy_backward_step)
                scenario_test toy_labeled toy_unlabeled scenario_start 0 1 = Ok st').
  { unfold epoch_loop. change (seqZ 0 (1 - 0)) with [0%Z].
    cbn [epochs_from]. unfold epoch_body, train, toy_labeled, toy_unlabeled,
      train_loader, enumerate.
    cbn [zip zip_with imap train_loop]. unfold train_body at 1.
    cbn [objects scenario_start]. rewrite Hr. cbn [rbind fst]. now eexists. }
  destruct H as [st' H]. exists st'. split; [exact H |].
  apply (proj2 (scheduler_steps_of_run 0.95 1 toy_forward toy_backward_step
                  scenario_test toy_labeled toy_unlabeled scenario_start st' 0 1 1
                  ltac:(lia) eq_refl H)); reflexivity.
Defined.

(** ** Resuming beyond the claims *)

Lemma getitem_first {V : Type} (d : list (string * V)) (k : string) (v : V) :
  getitem ((k, v) :: d) k = Ok v.
Proof. simpl. now rewrite String.eqb_refl. Qed.

Lemma load_items_same_shape (src own rest : state_dict) :
  NoDup (keys src) ->
  (forall kv, kv ∈ rest -> kv ∈ src) ->
  Forall2 (fun a b => fst a = fst b /\ length (snd a) = length (snd b)) own rest ->
  rmap (fun '(k, old) =>
          do v <~ getitem src k in
          if Nat.eqb (length v) (length old) then Ok (k, v)
          else Raise (RuntimeError "size mismatch")) own
  = Ok rest.
Proof.
  intros Hnd Hsub Hshape.
  induction Hshape as [| [k old] [k' v] own rest [Hk Hlen] _ IH]; simpl;
    [reflexivity |].
  simpl in Hk, Hlen. subst k'.
  rewrite (getitem_NoDup src k v Hnd) by (apply Hsub, elem_of_cons; now left).
  simpl. rewrite Hlen, Nat.eqb_refl. simpl.
  rewrite IH; [reflexivity |]. intros kv Hkv. apply Hsub, elem_of_cons. now right.
Qed.

(** The strict load into a module of the same shape (the same names in the
    same order, the same sizes) succeeds and gives the loaded values. *)
Lemma load_state_dict_same_shape (own src : state_dict) :
  NoDup (keys src) ->
  Forall2 (fun a b => fst a = fst b /\ length (snd a) = length (snd b)) own src ->
  load_state_dict own src = Ok src.
Proof.
  intros Hnd Hshape.
  assert (Hkeys : keys own = keys src).
  { clear Hnd. unfold keys.
    induction Hshape as [| a b own src [Hk _] _ IH]; simpl; congruence. }
  unfold load_state_dict.
  rewrite (filter_absent_nil src (keys own)) by (rewrite Hkeys; auto).
  rewrite (filter_absent_nil own (keys src)) by (rewrite Hkeys; auto).
  now apply load_items_same_shape.
Qed.

(** X25. What the resume path does once the key it reads exists: from a saved
    record that also holds the scheduler state under ["schduler"], objects
    of the shape of the saved ones get back the saved weights, shadow
    weights, optimizer and scheduler state, the best accuracy, and the next
    epoch [epoch + 1] as the epoch to start from. *)
Theorem resume_with_misspelt_key_present (epoch : Z) (l l0 : learner)
    (shadow shadow0 : ModelEMA) (test_acc best : R) :
  ema_model l = Some shadow ->
  ema_model l0 = Some shadow0 ->
  has_module (model l) = false ->
  ema_has_module shadow = false ->
  NoDup (keys (model_state (model l))) ->
  NoDup (keys (ema shadow)) ->
  Forall2 (fun a b => fst a = fst b /\ length (snd a) = length (snd b))
    (model_state (model l0)) (model_state (model l)) ->
  Forall2 (fun a b => fst a = fst b /\ length (snd a) = length (snd b))
    (ema shadow0) (ema shadow) ->
  length (group_weight_decay (optimizer l))
  = length (group_weight_decay (optimizer l0)) ->
  resume (<["schduler"%string := VScheduler (scheduler l)]>
            (checkpoint_record epoch l test_acc best)) l0
  = Ok (best, (epoch + 1)%Z,
        {| model := {| model_state := model_state (model l);
                       has_module := has_module (model l0) |};
           ema_model := Some {| ema := ema shadow; decay := decay shadow0;
                                ema_has_module := ema_has_module shadow0 |};
           optimizer := optimizer l;
           scheduler := scheduler l |}).
Proof.
  intros Hema Hema0 Hm He Hnd Hnde Hshape Hshapee Hgroups.
  unfold resume, ckpt_get, checkpoint_record. simplify_map_eq.
  rewrite Hm, He. cbn [state_to_save as_float as_int as_module_state rbind].
  rewrite !load_state_dict_same_shape by assumption.
  cbn [rbind optimizer_load scheduler_load]. now rewrite Hgroups, Nat.eqb_refl.
Qed.

Lemma resume_with_misspelt_key_present_witness :
  resume (<["schduler"%string := VScheduler (scheduler scenario_learner)]>
            (checkpoint_record 3 scenario_learner 75 80)) scenario_learner
  = Ok (80, 4%Z, scenario_learner).
Proof.
  apply (resume_with_misspelt_key_present 3 scenario_learner scenario_learner
           (shadow_with 10) (shadow_with 10) 75 80);
    try reflexivity; try compute_done; repeat constructor.
Defined.

Lemma state_to_save_wrapped (d : state_dict) :
  state_to_save true (map (fun kv => (("module." ++ fst kv)%string, snd kv)) d) = d.
Proof.
  simpl. induction d as [| [k v] d IH]; simpl; [reflexivity |].
  now rewrite strip_module_dot, IH.
Qed.

(** X26. The names saved for a wrapped model are those of the model inside the
    wrapper, so an unwrapped model of the same shape loads them: with every
    name of the wrapped state prefixed by [module.], what is saved is the
    unprefixed state, and the strict load of it succeeds. *)
Theorem saved_wrapped_state_loads_unwrapped (own d : state_dict) :
  NoDup (keys d) ->
  Forall2 (fun a b => fst a = fst b /\ length (snd a) = length (snd b)) own d ->
  state_to_save true (map (fun kv => (("module." ++ fst kv)%string, snd kv)) d) = d
  /\ load_state_dict own
       (state_to_save true (map (fun kv => (("module." ++ fst kv)%string, snd kv)) d))
     = Ok d.
Proof.
  intros Hnd Hshape. rewrite state_to_save_wrapped.
  split; [reflexivity |]. now apply load_state_dict_same_shape.
Qed.

Lemma saved_wrapped_state_loads_unwrapped_witness :
  load_state_dict [("weight"%string, [0])]
    (state_to_save true [("module.weight"%string, [10])])
  = Ok [("weight"%string, [10])].
Proof.
  apply (proj2 (saved_wrapped_state_loads_unwrapped [("weight"%string, [0])]
                  [("weight"%string, [10])] ltac:(compute_done)
                  ltac:(repeat constructor))).
Defined.

(** ** The loaders beyond the claims *)




(** ** The barriers of [main] *)





